(** * The configuration cache of the 3scale authorizer (package [cache])

    A shallow embedding of [ConfigCache] and of its methods, together with
    the properties of the cache that the specification states.

    Modelling choices, all taken from the Go source:
    - [time.Time] is an instant counted in nanoseconds from Go's zero time
      (January 1, year 1, 00:00:00 UTC), so the zero value of [time.Time] is
      the integer [0]; a [time.Duration] is a signed nanosecond count.
    - the package variable [now] and the refresh callbacks are effectful:
      they read and may change the outside world.  The world is an abstract
      type threaded through every effectful function.
    - [cmap.ConcurrentMap] and Go's built-in map are finite maps; the order
      in which [IterCb] and [range] visit their entries is unspecified and is
      a parameter of the functions that iterate.
    - the methods run one at a time: a refresh callback changes the world,
      not the cache that is being refreshed, and the goroutine launched by
      [RunRefreshWorker] is recorded, not run. *)

From stdpp Require Import gmap strings list fin_maps.

Local Open Scope Z_scope.

(** ** Package [time] *)

Abbreviation Time := Z (only parsing).
Abbreviation Duration := Z (only parsing).

Definition IsZero (t : Time) : bool := t =? 0.
Definition Add (t : Time) (d : Duration) : Time := t + d.
(** [After t u] is [t.After(u)]. *)
Definition After (t u : Time) : bool := u <? t.

Definition Minute : Duration := 60 * 1000000000.
Definition DefaultCacheTTL : Duration := Minute * 5.
Definition DefaultCacheRefreshInterval : Duration := Minute * 3.
Definition DefaultCacheLimit : Z := -1.

(** Go's [error] interface: [None] is [nil]. *)
Abbreviation error := (option string) (only parsing).

(** A channel value; [None] is the nil channel. *)
Abbreviation Chan := (option nat) (only parsing).

(** ** Package [sync/atomic] *)

(** [CompareAndSwapInt32 cell old new] returns the swapped flag and the new
    content of the cell. *)
Definition CompareAndSwapInt32 (cell old new : Z) : bool * Z :=
  if cell =? old then (true, new) else (false, cell).

Section cache.
(** [client.ProxyConfig] belongs to another repository: the cache treats
    it as an opaque payload with a zero value. *)
Variable ProxyConfig : Type.
Variable zeroConfig : ProxyConfig.

(** The outside world, and the clock [now] that reads it. *)
Variable World : Type.
Variable now : World → Time * World.

(** Effectful computations. *)
Definition M (A : Type) : Type := World → A * World.

Definition ret {A : Type} (a : A) : M A := λ w, (a, w).
Definition bind {A B : Type} (m : M A) (f : A → M B) : M B :=
  λ w, let '(a, w') := m w in f a w'.

Notation "x <- m ;; k" := (bind m (λ x, k))
  (at level 100, m at next level, right associativity).

(** [RefreshCb]: [func() (client.ProxyConfig, error)]. *)
Definition RefreshCb : Type := M (ProxyConfig * error).

Record Value : Type := mkValue {
  Item : ProxyConfig;
  expires : Time;
  refreshWith : option RefreshCb
}.

(** The composite literal [Value{}]. *)
Definition zeroValue : Value := mkValue zeroConfig 0 None.

Record ConfigCache : Type := mkConfigCache {
  cache : gmap string Value;
  limit : Z;
  refreshWorkerRunning : Z;
  stopRefreshWorker : Chan;
  ttl : Duration
}.

Definition with_cache (scp : ConfigCache) (m : gmap string Value) : ConfigCache :=
  mkConfigCache m (limit scp) (refreshWorkerRunning scp) (stopRefreshWorker scp) (ttl scp).

Definition NewConfigCache (ttl : Duration) (maxEntries : Z) : ConfigCache :=
  mkConfigCache ∅ maxEntries 0 None ttl.

Definition NewDefaultConfigCache : ConfigCache :=
  mkConfigCache ∅ DefaultCacheLimit 0 None DefaultCacheTTL.

(** [cmap.Count]. *)
Definition Count (m : gmap string Value) : Z := Z.of_nat (size m).

Definition Get (scp : ConfigCache) (key : string) : Value * bool :=
  match cache scp !! key with
  | None => (zeroValue, false)
  | Some value => (value, true)
  end.

Definition getExpiryTime (scp : ConfigCache) : M Time :=
  t <- now;; ret (Add t (ttl scp)).

Definition SetExpiry (v : Value) (t : Time) : Value :=
  mkValue (Item v) t (refreshWith v).

Definition SetRefreshCallback (v : Value) (fn : option RefreshCb) : Value :=
  mkValue (Item v) (expires v) fn.

Definition isExpired (v : Value) : M bool :=
  t <- now;; ret (After t (expires v)).

Definition cacheFull : string := "error - cache is full, cannot add more elements".

(** [Set]; the name is reserved in Rocq. *)
Definition Set_ (scp : ConfigCache) (key : string) (v : Value) : M (error * ConfigCache) :=
  if (limit scp <? 0) || (Count (cache scp) <? limit scp) then
    v <- (if IsZero (expires v)
          then t <- getExpiryTime scp;; ret (SetExpiry v t)
          else ret v);;
    ret (None, with_cache scp (<[key := v]> (cache scp)))
  else
    ret (Some cacheFull, scp).

Definition Delete (scp : ConfigCache) (key : string) : ConfigCache :=
  with_cache scp (delete key (cache scp)).

(** The order in which a map hands out its entries. *)
Definition Iteration : Type := gmap string Value → list (string * Value).

(** Every entry is visited exactly once. *)
Definition visits_all (it : Iteration) : Prop :=
  ∀ m, it m ≡ₚ map_to_list m.

(** [cmap.IterCb] over the entries [items], with a callback whose
    captured variables are the state [S]. *)
Fixpoint IterCb {S : Type} (items : list (string * Value))
    (fn : string → Value → S → M S) (s : S) : M S :=
  match items with
  | [] => ret s
  | (key, v) :: rest => s <- fn key v s;; IterCb rest fn s
  end.

Definition FlushExpired (order : Iteration) (scp : ConfigCache) : M ConfigCache :=
  forDeletion <- IterCb (order (cache scp))
    (λ key item (forDeletion : list string),
       b <- isExpired item;;
       ret (if b : bool then forDeletion ++ [key] else forDeletion)) [];;
  ret (foldl Delete scp forDeletion).

(** The callback of [Refresh]: [refreshItems] is its captured variable. *)
Definition refreshOne (scp : ConfigCache) (key : string) (item : Value)
    (refreshItems : gmap string Value) : M (gmap string Value) :=
  match refreshWith item with
  | Some cb =>
      r <- cb;;
      let '(resp, err) := r in
      match err with
      | Some _ => ret refreshItems
      | None =>
          t <- getExpiryTime scp;;
          ret (<[key := mkValue resp t (Some cb)]> refreshItems)
      end
  | None => ret refreshItems
  end.

(** [for k, v := range refreshItems { scp.Set(k, v) }]: the error that
    [Set] returns is dropped. *)
Fixpoint setEach (scp : ConfigCache) (items : list (string * Value)) : M ConfigCache :=
  match items with
  | [] => ret scp
  | (k, v) :: rest => r <- Set_ scp k v;; setEach r.2 rest
  end.

Definition Refresh (order range : Iteration) (scp : ConfigCache) : M ConfigCache :=
  refreshItems <- IterCb (order (cache scp)) (refreshOne scp) ∅;;
  setEach scp (range refreshItems).

(** The goroutine that [RunRefreshWorker] launches: a ticker of the given
    interval and the channel that stops it. *)
Record Worker : Type := mkWorker {
  tickEvery : Duration;
  stopOn : Chan
}.

Inductive Outcome : Type :=
| Returned (err : error)
| Panicked.

Definition alreadyStarted : string := "worker has already been started".

(** [RunRefreshWorker]; [workers] are the goroutines launched so far.
    [time.NewTicker] panics on a non-positive interval. *)
Definition RunRefreshWorker (scp : ConfigCache) (interval : Duration) (stop : Chan)
    (workers : list Worker) : Outcome * ConfigCache * list Worker :=
  let '(swapped, running) := CompareAndSwapInt32 (refreshWorkerRunning scp) 0 1 in
  if negb swapped then
    (Returned (Some alreadyStarted), scp, workers)
  else
    let scp := mkConfigCache (cache scp) (limit scp) running stop (ttl scp) in
    if interval <=? 0 then (Panicked, scp, workers)
    else (Returned None, scp, workers ++ [mkWorker interval stop]).

(** *** Vocabulary of the properties *)

(** The guard of [Set]. *)
Definition has_room (scp : ConfigCache) : Prop :=
  limit scp < 0 ∨ Count (cache scp) < limit scp.

(** What [Set] stores for [v] when it is called in the world [w]. *)
Definition stored (scp : ConfigCache) (v : Value) (w : World) : Value :=
  if IsZero (expires v) then SetExpiry v (Add (now w).1 (ttl scp)) else v.

(** The world that [Set] leaves behind when it stores [v]. *)
Definition after_store (v : Value) (w : World) : World :=
  if IsZero (expires v) then (now w).2 else w.

(** A caller that inserts the entries [items] one after the other and
    collects what each [Set] returned. *)
Fixpoint insertAll (scp : ConfigCache) (items : list (string * Value))
    : M (list error * ConfigCache) :=
  match items with
  | [] => ret ([], scp)
  | (k, v) :: rest =>
      r <- Set_ scp k v;;
      r' <- insertAll r.2 rest;;
      ret (r.1 :: r'.1, r'.2)
  end.

(** The world after [n] readings of the clock. *)
Fixpoint tick (n : nat) (w : World) : World :=
  match n with
  | O => w
  | S n => tick n (now w).2
  end.

(** No entry of the store has the zero time as its expiry. *)
Definition no_zero_expiry (scp : ConfigCache) : Prop :=
  ∀ k e, cache scp !! k = Some e → IsZero (expires e) = false.

(** The store holds no more entries than its limit allows. *)
Definition within_limit (scp : ConfigCache) : Prop :=
  limit scp < 0 ∨ Count (cache scp) ≤ limit scp.

End cache.

Arguments M World A : clear implicits.
Arguments ret {World A} a _.
Arguments bind {World A B} m f _.
Arguments mkValue {ProxyConfig World} _ _ _.
Arguments Item {ProxyConfig World} _.
Arguments expires {ProxyConfig World} _.
Arguments refreshWith {ProxyConfig World} _.
Arguments zeroValue {ProxyConfig} zeroConfig {World}.
Arguments mkConfigCache {ProxyConfig World} _ _ _ _ _.
Arguments cache {ProxyConfig World} _.
Arguments limit {ProxyConfig World} _.
Arguments refreshWorkerRunning {ProxyConfig World} _.
Arguments stopRefreshWorker {ProxyConfig World} _.
Arguments ttl {ProxyConfig World} _.
Arguments with_cache {ProxyConfig World} scp m.
Arguments NewConfigCache {ProxyConfig World} ttl maxEntries.
Arguments NewDefaultConfigCache {ProxyConfig World}.
Arguments Count {ProxyConfig World} m.
Arguments Get {ProxyConfig} zeroConfig {World} scp key.
Arguments getExpiryTime {ProxyConfig World} now scp _.
Arguments SetExpiry {ProxyConfig World} v t.
Arguments SetRefreshCallback {ProxyConfig World} v fn.
Arguments isExpired {ProxyConfig World} now v _.
Arguments Set_ {ProxyConfig World} now scp key v _.
Arguments Delete {ProxyConfig World} scp key.
Arguments visits_all {ProxyConfig World} it.
Arguments IterCb {ProxyConfig World S} items fn s _.
Arguments FlushExpired {ProxyConfig World} now order scp _.
Arguments refreshOne {ProxyConfig World} now scp key item refreshItems _.
Arguments setEach {ProxyConfig World} now scp items _.
Arguments Refresh {ProxyConfig World} now order range scp _.
Arguments RunRefreshWorker {ProxyConfig World} scp interval stop workers.
Arguments has_room {ProxyConfig World} scp.
Arguments stored {ProxyConfig World} now scp v w.
Arguments after_store {ProxyConfig World} now v w.
Arguments insertAll {ProxyConfig World} now scp items _.
Arguments no_zero_expiry {ProxyConfig World} scp.
Arguments tick {World} now n w.
Arguments within_limit {ProxyConfig World} scp.

(** * Package [authorizer]

    The packages that [authorizer.go] imports from other repositories and
    from the Go library are an interface: the cache and the clients behind
    [authorizer.Manager], the metrics map of the 3scale client, [regexp],
    [strings] and the logger.  What they do happens in the outside world. *)

Module Authorizer.

Local Open Scope string_scope.

(** [client.ProxyRule] and [client.ProxyConfig], as far as the code reads
    them: [conf.Content.Proxy.ProxyRules], [.Backend.Endpoint], ... *)
Record ProxyRule : Type := mkProxyRule {
  Pattern : string;
  HTTPMethod : string;
  MetricSystemName : string;
  Delta : Z
}.

Record ProxyConfig : Type := mkProxyConfig {
  ProxyRules : list ProxyRule;
  BackendEndpoint : string;
  AuthAppID : string;
  AuthAppKey : string;
  AuthUserKey : string;
  BackendAuthenticationType : string;
  BackendAuthenticationValue : string
}.

(** [url.Userinfo], [url.Values] and [url.URL]; [String_] and [Query] are
    what [String()] and [Query()] return for the URL. *)
Record Userinfo : Type := mkUserinfo {
  username : string;
  password : string;
  passwordSet : bool
}.

(** [Password] accepts the nil pointer. *)
Definition Password (u : option Userinfo) : string * bool :=
  match u with
  | None => ("", false)
  | Some u => (password u, passwordSet u)
  end.

Abbreviation Values := (gmap string (list string)) (only parsing).

(** [url.Values.Get]. *)
Definition ValuesGet (v : Values) (key : string) : string :=
  match v !! key with
  | Some (first :: _) => first
  | _ => ""
  end.

Record URL : Type := mkURL {
  User : option Userinfo;
  String_ : string;
  Query : Values
}.

(** [http.Request], as far as the code reads it. *)
Record Request : Type := mkRequest {
  RequestURI : string;
  Method : string;
  RequestURL : option URL
}.

Record SystemCacheConfig : Type := mkSystemCacheConfig {
  MaxSize : Z;
  NumRetryFailedRefresh : Z;
  RefreshInterval : Duration;
  TTL : Duration
}.

Record SystemRequest : Type := mkSystemRequest {
  AccessToken : string;
  ServiceID : string;
  Environment : string
}.

Record BackendAuth : Type := mkBackendAuth {
  Type_ : string;
  Value_ : string
}.

Record BackendParams : Type := mkBackendParams {
  AppID : string;
  AppKey : string;
  UserKey : string
}.

(** [BackendTransaction] and [BackendRequest] carry an [api.Metrics]. *)
Record BackendTransaction (MetricsMap : Type) : Type := mkBackendTransaction {
  TransactionMetrics : MetricsMap;
  Params : BackendParams
}.
Arguments mkBackendTransaction {MetricsMap} _ _.
Arguments TransactionMetrics {MetricsMap} _.
Arguments Params {MetricsMap} _.

Record BackendRequest (MetricsMap : Type) : Type := mkBackendRequest {
  Auth : BackendAuth;
  Service : string;
  Transactions : list (BackendTransaction MetricsMap)
}.
Arguments mkBackendRequest {MetricsMap} _ _ _.
Arguments Auth {MetricsMap} _.
Arguments Service {MetricsMap} _.
Arguments Transactions {MetricsMap} _.

Definition Second : Duration := 1000000000.

(** A call either returns or panics. *)
Inductive Result (A : Type) : Type :=
| Done (a : A)
| Panic.
Arguments Done {A} a.
Arguments Panic {A}.

(** The imported packages. *)
Class Imports (World : Type) : Type := {
  (** [api.Metrics]: [make(api.Metrics)], and the map after
      [metrics.Add(name, value)] (the code drops what [Add] returns). *)
  Metrics : Type;
  newMetrics : Metrics;
  MetricsAdd : Metrics → string → Z → Metrics;
  (** [regexp.MatchString(pattern, s)] and [strings.ToUpper]. *)
  MatchString : string → string → bool * error;
  ToUpper : string → string;
  (** [log.Warning]. *)
  logWarning : string → M World unit;
  (** [make(chan struct{})]. *)
  makeChan : M World Chan;
  (** Package [authorizer] of the Istio adapter. *)
  SystemCache : Type;
  ClientBuilder : Type;
  Manager : Type;
  BackendResponse : Type;
  Authorized : BackendResponse → bool;
  NewSystemCache : SystemCacheConfig → Chan → M World SystemCache;
  (** [NewClientBuilder(httpClient)], called with the nil client. *)
  NewClientBuilder : ClientBuilder;
  NewManager : ClientBuilder → SystemCache → bool → M World (Manager * error);
  GetSystemConfiguration : Manager → string → SystemRequest → M World (ProxyConfig * error);
  AuthRep : Manager → string → BackendRequest Metrics → M World (BackendResponse * error);
}.

Section authorizer.
Context {World : Type} `{Imports World}.

Notation "x <- m ;; k" := (bind m (λ x, k))
  (at level 100, m at next level, right associativity).

Record Config : Type := mkConfig {
  serviceAPICacheConfig : SystemCacheConfig;
  authorizationAPICache : bool;
  adminPortalURL : option URL;
  environment : string;
  serviceID : string
}.

Record Authorizer : Type := mkAuthorizer {
  stopChan : Chan;
  config : Config;
  manager : Manager
}.

(** The conversion [int(pr.Delta)] of an [int64], on a platform whose [int]
    has 64 bits. *)
Definition int (d : Z) : Z := d.

(** The test of the loop of [generateMetrics]: the pattern compiles and
    matches the path, and the methods are equal in upper case. *)
Definition applies (path method : string) (pr : ProxyRule) : bool :=
  let '(matched, err) := MatchString (Pattern pr) path in
  match err with
  | None => matched && bool_decide (ToUpper (HTTPMethod pr) = ToUpper method)
  | Some _ => false
  end.

Definition generateMetrics (path method : string) (conf : ProxyConfig) : Metrics :=
  foldl
    (λ metrics pr,
       let '(matched, err) := MatchString (Pattern pr) path in
       match err with
       | None =>
           if matched && bool_decide (ToUpper (HTTPMethod pr) = ToUpper method)
           then MetricsAdd metrics (MetricSystemName pr) (int (Delta pr))
           else metrics
       | Some _ => metrics
       end)
    newMetrics (ProxyRules conf).

Definition missingServiceID : string := "missing serviceID".

Definition New (AdminPortalURL : option URL) (environment serviceID : string)
    (ServiceAPICache AuthorizationAPICache : bool) : M World (option Authorizer * error) :=
  if bool_decide (serviceID = "") then
    ret (None, Some missingServiceID)
  else
    environment <-
      (if bool_decide (environment = "")
       then _ <- logWarning "Environment variable is empty, running in sandbox mode.";;
            ret "sandbox"
       else ret environment);;
    let systemCacheConfig :=
      if ServiceAPICache
      then mkSystemCacheConfig 100 3 (30 * Second) (120 * Second)
      else mkSystemCacheConfig 0 0 0 0 in
    stop <- makeChan;;
    systemCache <- NewSystemCache systemCacheConfig stop;;
    let builder := NewClientBuilder in
    r <- NewManager builder systemCache AuthorizationAPICache;;
    match r.2 with
    | Some err => ret (None, Some err)
    | None =>
        ret (Some (mkAuthorizer stop
                     (mkConfig systemCacheConfig AuthorizationAPICache AdminPortalURL
                        environment serviceID)
                     r.1),
             None)
    end.

(** [AuthzRep]; [request] is a pointer, and so are the two URLs: reading
    through a nil pointer panics. *)
Definition AuthzRep (a : Authorizer) (request : option Request)
    : M World (Result (bool * error)) :=
  match adminPortalURL (config a) with
  | None => ret Panic
  | Some portal =>
      let token := (Password (User portal)).1 in
      let systemRequest :=
        mkSystemRequest token (serviceID (config a)) (environment (config a)) in
      r <- GetSystemConfiguration (manager a) (String_ portal) systemRequest;;
      match r.2 with
      | Some err => ret (Done (false, Some err))
      | None =>
          let proxyConfig := r.1 in
          match request with
          | None => ret Panic
          | Some request =>
              let metrics :=
                generateMetrics (RequestURI request) (Method request) proxyConfig in
              let backendURL := BackendEndpoint proxyConfig in
              match RequestURL request with
              | None => ret Panic
              | Some u =>
                  let params := Query u in
                  let appID := ValuesGet params (AuthAppID proxyConfig) in
                  let appKey := ValuesGet params (AuthAppKey proxyConfig) in
                  let userKey := ValuesGet params (AuthUserKey proxyConfig) in
                  let backendRequest :=
                    mkBackendRequest
                      (mkBackendAuth (BackendAuthenticationType proxyConfig)
                         (BackendAuthenticationValue proxyConfig))
                      (serviceID (config a))
                      [mkBackendTransaction metrics (mkBackendParams appID appKey userKey)] in
                  r <- AuthRep (manager a) backendURL backendRequest;;
                  match r.2 with
                  | Some err => ret (Done (false, Some err))
                  | None => ret (Done (Authorized r.1, None))
                  end
              end
          end
      end
  end.

End authorizer.

End Authorizer.

(** ** Concrete worlds, used to run the cache on examples *)

Module Fixture.

(** A clock that reads [0], [1], [2], ...: the world is the number of
    readings made so far. *)
Definition ticking : nat → Time * nat := λ w, (Z.of_nat w, S w).

(** A clock stopped at the instant [t]. *)
Definition stopped (t : Time) : nat → Time * nat := λ w, (t, w).

(** A clock that reads [5], then [6], [7], ... *)
Definition from5 : nat → Time * nat := λ w, (5 + Z.of_nat w, S w).

(** Payloads are just their [ID]. *)
Definition succeedWith (id : Z) : RefreshCb Z nat := λ w, ((id, None), w).
Definition failing : RefreshCb Z nat := λ w, ((0, Some "timeout"%string), w).

(** The order of [map_to_list]. *)
Definition canonical : Iteration Z nat := map_to_list.

(** The store that [NewConfigCache ttl limit] becomes when a caller
    inserts [entries] with [Set], under the clock [ticking]. *)
Definition storeOf (ttl : Duration) (limit : Z) (entries : list (string * Value Z nat))
    : ConfigCache Z nat :=
  (insertAll ticking (NewConfigCache ttl limit) entries 0%nat).1.2.

(** A store of limit [1] that holds one entry. *)
Definition fullStore : ConfigCache Z nat :=
  storeOf 10 1 [("a"%string, mkValue 5 100 None)].

(** Two entries that expire at the instant [5], in a store without limit. *)
Definition twoEntries : ConfigCache Z nat :=
  storeOf 10 (-1) [("a"%string, mkValue 1 5 None); ("b"%string, mkValue 2 5 None)].

(** The entries of [TestConfigCache_Refresh]. *)
Definition refreshable : Value Z nat := mkValue 5 100 (Some (succeedWith 6)).
Definition unrefreshable : Value Z nat := mkValue 5 100 (Some failing).

End Fixture.

(** Stand-ins for the imported packages, to run the authorizer: the world
    is the log; a pattern matches the path it is equal to, and the pattern
    ["("] does not compile; the backend authorizes the user key ["secret"]. *)
Module AuthFixture.
Import Authorizer.
Local Open Scope string_scope.

Definition upper (c : Ascii.ascii) : Ascii.ascii :=
  let n := Ascii.nat_of_ascii c in
  if ((97 <=? n) && (n <=? 122))%nat then Ascii.ascii_of_nat (n - 32) else c.

Fixpoint toUpper (s : string) : string :=
  match s with
  | EmptyString => EmptyString
  | String c rest => String (upper c) (toUpper rest)
  end.

Definition petstore : ProxyConfig :=
  mkProxyConfig
    [mkProxyRule "/pets" "GET" "hits" 1;
     mkProxyRule "(" "GET" "broken" 5;
     mkProxyRule "/pets" "post" "writes" 2;
     mkProxyRule "/pets" "get" "reads" 3]
    "https://backend" "app_id" "app_key" "user_key" "service_token" "token".

Definition authorizes (request : BackendRequest (list (string * Z))) : bool :=
  match Transactions request with
  | [t] => bool_decide (UserKey (Params t) = "secret")
  | _ => false
  end.

Definition imports : Imports (list string) := {|
  Metrics := list (string * Z);
  newMetrics := [];
  MetricsAdd := λ metrics name value, (metrics ++ [(name, value)])%list;
  MatchString := λ pattern s,
    if bool_decide (pattern = "(") then (false, Some "missing closing )")
    else (bool_decide (pattern = s), None);
  ToUpper := toUpper;
  logWarning := λ msg log, (tt, (log ++ [msg])%list);
  makeChan := λ log, (Some 0%nat, log);
  SystemCache := unit;
  ClientBuilder := unit;
  Manager := unit;
  BackendResponse := bool;
  Authorized := λ resp, resp;
  NewSystemCache := λ _ _ log, (tt, log);
  NewClientBuilder := tt;
  NewManager := λ _ _ _ log, ((tt, None), log);
  GetSystemConfiguration := λ _ _ _ log, ((petstore, None), log);
  AuthRep := λ _ _ request log, ((authorizes request, None), log)
|}.

Definition portal : URL :=
  mkURL (Some (mkUserinfo "" "access-token" true)) "https://:access-token@portal" ∅.

Definition getPets (key : string) : Request :=
  mkRequest "/pets" "get"
    (Some (mkURL None "/pets" {[ "user_key" := [key] ]})).

End AuthFixture.

(** ** Properties *)

Section properties.
Context {ProxyConfig : Type} (zeroConfig : ProxyConfig).
Context {World : Type} (now : World → Time * World).

Implicit Types (scp : ConfigCache ProxyConfig World) (v : Value ProxyConfig World).
Implicit Types (key k : string) (w : World).

(** *** [Set] *)

Lemma getExpiryTime_eq scp w :
  getExpiryTime now scp w = (Add (now w).1 (ttl scp), (now w).2).
Proof. unfold getExpiryTime, bind, ret. by destruct (now w). Qed.

Lemma Set_room scp key v w :
  has_room scp →
  Set_ now scp key v w =
    ((None, with_cache scp (<[key := stored now scp v w]> (cache scp))), after_store now v w).
Proof.
  intros Hroom. unfold Set_, stored, after_store.
  assert ((limit scp <? 0) || (Count (cache scp) <? limit scp) = true) as ->.
  { apply orb_true_iff. destruct Hroom; [left | right]; by apply Z.ltb_lt. }
  unfold bind, ret. destruct (IsZero (expires v)); [|done].
  by rewrite getExpiryTime_eq.
Qed.

Lemma Set_full scp key v w :
  0 ≤ limit scp → limit scp ≤ Count (cache scp) →
  Set_ now scp key v w = ((Some cacheFull, scp), w).
Proof.
  intros Hlim Hfull. unfold Set_.
  assert ((limit scp <? 0) || (Count (cache scp) <? limit scp) = false) as ->; [|done].
  apply orb_false_iff. split; apply Z.ltb_ge; lia.
Qed.

Lemma has_room_dec scp :
  has_room scp ∨ (0 ≤ limit scp ∧ limit scp ≤ Count (cache scp)).
Proof. unfold has_room. lia. Qed.

(** A [Set] that returns [nil] had room and stored the entry. *)
Lemma Set_nil_inv scp key v w scp' w' :
  Set_ now scp key v w = ((None, scp'), w') →
  has_room scp ∧ scp' = with_cache scp (<[key := stored now scp v w]> (cache scp))
    ∧ w' = after_store now v w.
Proof.
  intros HSet. destruct (has_room_dec scp) as [Hroom | [Hlim Hfull]].
  - rewrite (Set_room _ _ _ _ Hroom) in HSet. by simplify_eq.
  - rewrite (Set_full _ _ _ _ Hlim Hfull) in HSet. by simplify_eq.
Qed.

Lemma Count_insert_present (m : gmap string (Value ProxyConfig World)) key v :
  is_Some (m !! key) → Count (<[key := v]> m) = Count m.
Proof.
  intros [old Hold]. unfold Count. f_equal.
  rewrite <- (insert_delete_id m key old Hold) at 2.
  rewrite <- (insert_delete_eq m key v).
  rewrite !map_size_insert_None; by rewrite ?lookup_delete_eq.
Qed.

Lemma Count_insert_absent (m : gmap string (Value ProxyConfig World)) key v :
  m !! key = None → Count (<[key := v]> m) = Count m + 1.
Proof. intros Hnone. unfold Count. rewrite map_size_insert_None; [lia | done]. Qed.

(** C1 (as amended).  [Set] tests the capacity without looking at the key:
    on a store whose entry count has reached its non-negative limit, [Set]
    of a key that is already present returns the capacity error and changes
    nothing; an overwrite succeeds exactly when the guard of [Set] holds
    (negative limit, or count below the limit), and then it replaces the
    entry and keeps the entry count. *)
Theorem Set_overwrite_checks_capacity scp key v w :
  is_Some (cache scp !! key) →
  (0 ≤ limit scp → limit scp ≤ Count (cache scp) →
     Set_ now scp key v w = ((Some cacheFull, scp), w)) ∧
  (has_room scp →
     ∃ scp', Set_ now scp key v w = ((None, scp'), after_store now v w) ∧
       cache scp' !! key = Some (stored now scp v w) ∧
       Count (cache scp') = Count (cache scp)).
Proof.
  intros Hpresent. split.
  - intros Hlim Hfull. by apply Set_full.
  - intros Hroom. eexists. split; [by apply Set_room|]. simpl. split.
    + apply lookup_insert_eq.
    + by apply Count_insert_present.
Qed.

(** C6.  After a [Set] that returned [nil], [Get] on the same key finds the
    stored entry, whose payload and callback are those of the value passed
    to [Set]; nothing in [Get] reads the clock or the expiry, so this holds
    whatever the expiry is.  [Get] on an absent key returns the zero entry
    and [false]. *)
Theorem Get_after_Set scp key v w scp' w' :
  Set_ now scp key v w = ((None, scp'), w') →
  (∃ entry, Get zeroConfig scp' key = (entry, true) ∧
     cache scp' !! key = Some entry ∧
     Item entry = Item v ∧ refreshWith entry = refreshWith v) ∧
  (∀ (c : ConfigCache ProxyConfig World) other,
     cache c !! other = None → Get zeroConfig c other = (zeroValue zeroConfig, false)).
Proof.
  intros (_ & -> & _)%Set_nil_inv. split.
  - exists (stored now scp v w). unfold Get. simpl. rewrite lookup_insert_eq.
    repeat split; unfold stored; by destruct (IsZero (expires v)).
  - intros c other Habsent. unfold Get. by rewrite Habsent.
Qed.

(** C8.  The entry stored by a successful [Set] has its expiry set by that
    call: the caller's expiry when the caller gave one (a non-zero time),
    and otherwise [now() + ttl], the result of [getExpiryTime] on the
    store's TTL and the clock. *)
Theorem Set_expiry scp key v w scp' w' :
  Set_ now scp key v w = ((None, scp'), w') →
  ∃ entry, cache scp' !! key = Some entry ∧
    (IsZero (expires v) = false → expires entry = expires v) ∧
    (IsZero (expires v) = true →
       expires entry = Add (now w).1 (ttl scp) ∧
       getExpiryTime now scp w = (expires entry, w')).
Proof.
  intros (_ & -> & ->)%Set_nil_inv.
  exists (stored now scp v w). simpl. rewrite lookup_insert_eq.
  unfold stored, after_store. split; [done|].
  split; intros Hzero; rewrite Hzero; [done|].
  by rewrite getExpiryTime_eq.
Qed.


(** *** Filling a store *)

Lemma insertAll_cons scp k v rest w :
  insertAll now scp ((k, v) :: rest) w =
    let r := Set_ now scp k v w in
    let r' := insertAll now r.1.2 rest r.2 in
    ((r.1.1 :: r'.1.1, r'.1.2), r'.2).
Proof.
  simpl. unfold bind, ret.
  destruct (Set_ now scp k v w) as [[e scp1] w1]. simpl.
  by destruct (insertAll now scp1 rest w1) as [[es scp2] w2].
Qed.

(** New keys that fit under the limit are all stored. *)
Lemma insertAll_fits (items : list (string * Value ProxyConfig World)) :
  ∀ scp w,
    NoDup items.*1 →
    (∀ k, k ∈ items.*1 → cache scp !! k = None) →
    (limit scp < 0 ∨ Count (cache scp) + Z.of_nat (length items) ≤ limit scp) →
    let r := insertAll now scp items w in
    r.1.1 = replicate (length items) None ∧
    dom (cache r.1.2) = dom (cache scp) ∪ list_to_set items.*1 ∧
    Count (cache r.1.2) = Count (cache scp) + Z.of_nat (length items) ∧
    limit r.1.2 = limit scp.
Proof.
  induction items as [|[k v] rest IH]; intros scp w Hnodup Hnew Hfits.
  - simpl. repeat split; [set_solver | lia].
  - rewrite insertAll_cons.
    assert (has_room scp) as Hroom.
    { destruct Hfits as [Hneg | Hle]; [by left | right]. simpl in Hle. lia. }
    rewrite (Set_room _ _ _ _ Hroom). cbn [fst snd].
    apply NoDup_cons in Hnodup as [Hk Hnodup].
    assert (cache scp !! k = None) as Hknew by (apply Hnew; set_solver).
    set (scp1 := with_cache scp (<[k := stored now scp v w]> (cache scp))).
    destruct (IH scp1 (after_store now v w)) as (Herrs & Hdom & Hcount & Hlimit).
    + done.
    + intros k' Hk'. simpl. rewrite lookup_insert_ne; [|set_solver].
      apply Hnew. set_solver.
    + simpl. rewrite Count_insert_absent by done.
      destruct Hfits as [Hneg | Hle]; [by left | right].
      simpl in Hle. lia.
    + cbn zeta. cbn [fst snd].
      rewrite Herrs, Hdom, Hcount, Hlimit. simpl.
      rewrite Count_insert_absent by done. rewrite dom_insert_L.
      repeat split; [set_solver | lia].
Qed.

(** A store with a negative limit accepts every insertion. *)
Lemma insertAll_unlimited (items : list (string * Value ProxyConfig World)) :
  ∀ scp w,
    limit scp < 0 →
    (insertAll now scp items w).1.1 = replicate (length items) None.
Proof.
  induction items as [|[k v] rest IH]; intros scp w Hneg; [done|].
  rewrite insertAll_cons.
  rewrite (Set_room _ _ _ _ (or_introl Hneg)). cbn zeta. cbn [fst snd].
  by rewrite IH.
Qed.

(** C3.  Into an empty store of limit [L ≥ 0], [L] distinct keys are
    inserted with every [Set] returning [nil]; the store then holds exactly
    these keys, and [Set] of any further key returns the capacity error and
    leaves the store as it is.  On a store with a negative limit every
    [Set] of any sequence of insertions returns [nil]. *)
Theorem capacity_limit (L : Z) (ttl0 : Duration)
    (items : list (string * Value ProxyConfig World)) w :
  0 ≤ L → NoDup items.*1 → Z.of_nat (length items) = L →
  let r := insertAll now (NewConfigCache ttl0 L) items w in
  r.1.1 = replicate (length items) None ∧
  dom (cache r.1.2) = list_to_set items.*1 ∧
  (∀ k v w', k ∉ items.*1 →
     Set_ now r.1.2 k v w' = ((Some cacheFull, r.1.2), w') ∧
     Get zeroConfig r.1.2 k = (zeroValue zeroConfig, false)) ∧
  (∀ scp more k v w0,
     limit scp < 0 →
     (insertAll now scp more w0).1.1 = replicate (length more) None ∧
     (Set_ now scp k v w0).1.1 = None).
Proof.
  intros HL Hnodup Hlen.
  destruct (insertAll_fits items (NewConfigCache ttl0 L) w)
    as (Herrs & Hdom & Hcount & Hlimit); [done | | |].
  { intros k _. apply lookup_empty. }
  { right. unfold Count. simpl. rewrite map_size_empty. lia. }
  cbn zeta. split; [done|]. split.
  { rewrite Hdom. simpl. rewrite dom_empty_L. set_solver. }
  split.
  - intros k v w' Hk. split.
    + apply Set_full; rewrite Hlimit; simpl; [done|].
      rewrite Hcount. unfold Count at 1. simpl. rewrite map_size_empty. lia.
    + unfold Get.
      assert (cache (insertAll now (NewConfigCache ttl0 L) items w).1.2 !! k = None) as ->;
        [|done].
      apply not_elem_of_dom. rewrite Hdom. simpl. rewrite dom_empty_L. set_solver.
  - intros scp more k v w0 Hneg. split; [by apply insertAll_unlimited|].
    by rewrite (Set_room _ _ _ _ (or_introl Hneg)).
Qed.


(** *** Iteration *)

Lemma IterCb_app {S : Type} (pre post : list (string * Value ProxyConfig World))
    (fn : string → Value ProxyConfig World → S → M World S) (s : S) w :
  IterCb (pre ++ post) fn s w =
    IterCb post fn (IterCb pre fn s w).1 (IterCb pre fn s w).2.
Proof.
  revert s w. induction pre as [|[k v] pre IH]; intros s w; [done|].
  simpl. unfold bind. destruct (fn k v s w) as [s1 w1]. apply IH.
Qed.

Lemma IterCb_cons {S : Type} k v (rest : list (string * Value ProxyConfig World))
    (fn : string → Value ProxyConfig World → S → M World S) (s : S) w :
  IterCb ((k, v) :: rest) fn s w = IterCb rest fn (fn k v s w).1 (fn k v s w).2.
Proof. simpl. unfold bind. by destruct (fn k v s w). Qed.

(** In a list of entries with distinct keys, a key has one position. *)
Lemma split_unique (items pre pre' post post' : list (string * Value ProxyConfig World))
    k v v' :
  NoDup items.*1 →
  items = pre ++ (k, v) :: post →
  items = pre' ++ (k, v') :: post' →
  pre = pre' ∧ v = v' ∧ post = post'.
Proof.
  intros Hnodup -> Heq. revert pre' Hnodup Heq.
  induction pre as [|[k0 v0] pre IH]; intros pre' Hnodup Heq.
  - destruct pre' as [|[k1 v1] pre']; simpl in *.
    + by simplify_eq.
    + simplify_eq. apply NoDup_cons in Hnodup as [Hk _].
      exfalso. apply Hk. rewrite fmap_app. set_solver.
  - destruct pre' as [|[k1 v1] pre']; simpl in *.
    + simplify_eq. apply NoDup_cons in Hnodup as [Hk _].
      exfalso. apply Hk. rewrite fmap_app. set_solver.
    + simplify_eq. apply NoDup_cons in Hnodup as [_ Hnodup].
      destruct (IH pre' Hnodup) as (-> & -> & ->); done.
Qed.

Lemma visits_all_NoDup (order : Iteration ProxyConfig World) m :
  visits_all order → NoDup (order m).*1.
Proof. intros Hall. rewrite (Hall m). apply NoDup_fst_map_to_list. Qed.

Lemma visits_all_lookup (order : Iteration ProxyConfig World) m k v :
  visits_all order → (k, v) ∈ order m ↔ m !! k = Some v.
Proof. intros Hall. rewrite (Hall m). apply elem_of_map_to_list. Qed.

(** *** [FlushExpired] *)

(** The callback that [FlushExpired] hands to [IterCb]. *)
Local Abbreviation noteExpired :=
  (λ (key : string) (item : Value ProxyConfig World) (forDeletion : list string),
     bind (isExpired now item)
       (λ b : bool, ret (if b then forDeletion ++ [key] else forDeletion))).

Lemma noteExpired_step k v (acc : list string) w :
  noteExpired k v acc w =
    (if After (now w).1 (expires v) then acc ++ [k] else acc, (now w).2).
Proof. unfold isExpired, bind, ret. by destruct (now w). Qed.

(** The keys collected are those of the entries that were expired when
    they were visited, each against its own reading of the clock. *)
Lemma noteExpired_scan (items : list (string * Value ProxyConfig World)) :
  ∀ acc w,
    let r := IterCb items noteExpired acc w in
    r.2 = tick now (length items) w ∧
    ∃ del, r.1 = acc ++ del ∧
      ∀ k, k ∈ del ↔
        ∃ pre v post, items = pre ++ (k, v) :: post ∧
          After (now (tick now (length pre) w)).1 (expires v) = true.
Proof.
  induction items as [|[k0 v0] rest IH]; intros acc w.
  - simpl. split; [done|]. exists []. split; [by rewrite app_nil_r|].
    intros k. split; [by intros ?%elem_of_nil|].
    intros (pre & v & post & Heq & _). by destruct pre.
  - rewrite IterCb_cons, noteExpired_step. cbn [fst snd length tick].
    destruct (now w) as [t w1] eqn:Hnow. cbn [fst snd].
    set (acc1 := if After t (expires v0) then acc ++ [k0] else acc).
    destruct (IH acc1 w1) as (Hworld & del & Hdel & Hmem).
    split; [done|].
    exists ((if After t (expires v0) then [k0] else []) ++ del). split.
    { rewrite Hdel. unfold acc1. destruct (After t (expires v0)).
      - by rewrite <- app_assoc.
      - done. }
    intros k. rewrite elem_of_app, Hmem. split.
    + intros [Hhead | (pre & v & post & -> & Hafter)].
      * destruct (After t (expires v0)) eqn:Hexp; [|by apply elem_of_nil in Hhead].
        apply list_elem_of_singleton in Hhead as ->.
        exists [], v0, rest. simpl. by rewrite Hnow.
      * exists ((k0, v0) :: pre), v, post. simpl. by rewrite Hnow.
    + intros (pre & v & post & Heq & Hafter).
      destruct pre as [|[k1 v1] pre]; simpl in *; simplify_eq.
      * left. rewrite Hnow in Hafter. simpl in Hafter. rewrite Hafter. set_solver.
      * right. exists pre, v, post. by rewrite Hnow in Hafter.
Qed.

Lemma foldl_Delete_lookup (del : list string) :
  ∀ scp k,
    cache (foldl Delete scp del) !! k =
      if decide (k ∈ del) then None else cache scp !! k.
Proof.
  induction del as [|k0 del IH]; intros scp k; cbn [foldl].
  - destruct (decide (k ∈ [])) as [Hin|_]; [by apply elem_of_nil in Hin | done].
  - rewrite IH. unfold Delete at 1. cbn [cache with_cache].
    destruct (decide (k = k0)) as [->|Hne].
    + rewrite lookup_delete_eq.
      destruct (decide (k0 ∈ k0 :: del)) as [_|Hout]; [|by exfalso; apply Hout; left].
      by destruct (decide (k0 ∈ del)).
    + rewrite lookup_delete_ne by done.
      destruct (decide (k ∈ del)) as [Hin|Hout], (decide (k ∈ k0 :: del)) as [Hin'|Hout'];
        try done.
      * exfalso. apply Hout'. by right.
      * apply elem_of_cons in Hin' as [?|?]; done.
Qed.

Lemma foldl_Delete_fields (del : list string) :
  ∀ scp,
    limit (foldl Delete scp del) = limit scp ∧
    ttl (foldl Delete scp del) = ttl scp ∧
    refreshWorkerRunning (foldl Delete scp del) = refreshWorkerRunning scp ∧
    stopRefreshWorker (foldl Delete scp del) = stopRefreshWorker scp.
Proof.
  induction del as [|k0 del IH]; intros scp; [done|].
  simpl. by destruct (IH (Delete scp k0)) as (-> & -> & -> & ->).
Qed.


Lemma FlushExpired_eq (order : Iteration ProxyConfig World) scp w :
  FlushExpired now order scp w =
    (foldl Delete scp (IterCb (order (cache scp)) noteExpired [] w).1,
     (IterCb (order (cache scp)) noteExpired [] w).2).
Proof.
  unfold FlushExpired. unfold bind at 1.
  by destruct (IterCb (order (cache scp)) _ [] w).
Qed.

(** C5 (as amended).  [FlushExpired] reads the clock once for every entry
    it visits, not once for the call: an entry is removed exactly when the
    reading made for it is strictly after its expiry (an entry whose expiry
    equals that reading is kept), and every other entry is left as it was.
    When the clock reads one instant [t] during the whole call, the entries
    removed are exactly those whose expiry is strictly before [t]. *)
Theorem FlushExpired_reads_clock_per_entry (order : Iteration ProxyConfig World) scp w :
  visits_all order →
  let r := FlushExpired now order scp w in
  (∀ pre k v post,
     order (cache scp) = pre ++ (k, v) :: post →
     cache r.1 !! k =
       if After (now (tick now (length pre) w)).1 (expires v) then None else Some v) ∧
  (∀ k, cache scp !! k = None → cache r.1 !! k = None) ∧
  (∀ t, (∀ n, (now (tick now n w)).1 = t) →
     cache r.1 = filter (λ kv, t ≤ expires kv.2) (cache scp)) ∧
  r.2 = tick now (length (order (cache scp))) w ∧
  limit r.1 = limit scp ∧ ttl r.1 = ttl scp.
Proof.
  intros Hall. cbn zeta. rewrite FlushExpired_eq. cbn [fst snd].
  destruct (noteExpired_scan (order (cache scp)) [] w) as (Hworld & del & Hdel & Hmem).
  cbn zeta in Hworld, Hdel. rewrite Hdel. cbn [app].
  assert (∀ pre k v post,
    order (cache scp) = pre ++ (k, v) :: post →
    cache (foldl Delete scp del) !! k =
      if After (now (tick now (length pre) w)).1 (expires v) then None else Some v)
    as Hvisited.
  { intros pre k v post Hsplit. rewrite foldl_Delete_lookup.
    assert (cache scp !! k = Some v) as Hlookup.
    { apply (visits_all_lookup order); [done|]. rewrite Hsplit. set_solver. }
    destruct (decide (k ∈ del)) as [Hin|Hout].
    - apply Hmem in Hin as (pre' & v' & post' & Hsplit' & Hafter).
      destruct (split_unique _ _ _ _ _ _ _ _ (visits_all_NoDup order _ Hall) Hsplit Hsplit')
        as (-> & -> & _).
      by rewrite Hafter.
    - destruct (After _ _) eqn:Hafter; [|done].
      exfalso. apply Hout, Hmem. by exists pre, v, post. }
  split; [done|]. split.
  { intros k Hnone. rewrite foldl_Delete_lookup, Hnone. by destruct (decide _). }
  split.
  { intros t Hfrozen. apply map_eq. intros k.
    destruct (cache scp !! k) as [v|] eqn:Hlookup.
    - assert ((k, v) ∈ order (cache scp)) as Hin by by apply visits_all_lookup.
      apply list_elem_of_split in Hin as (pre & post & Hsplit).
      rewrite (Hvisited _ _ _ _ Hsplit), Hfrozen. unfold After.
      destruct (expires v <? t) eqn:Hlt.
      + symmetry. apply map_lookup_filter_None. right. intros v' Hv'.
        simplify_eq. simpl. apply Z.ltb_lt in Hlt. lia.
      + symmetry. apply map_lookup_filter_Some. split; [done|].
        simpl. apply Z.ltb_ge in Hlt. lia.
    - rewrite foldl_Delete_lookup, Hlookup.
      transitivity (@None (Value ProxyConfig World)); [by destruct (decide _)|].
      symmetry. apply map_lookup_filter_None. by left. }
  split; [done|].
  by destruct (foldl_Delete_fields del scp) as (-> & -> & _).
Qed.


(** *** [Refresh] *)

Lemma refreshOne_none scp k v (acc : gmap string (Value ProxyConfig World)) w :
  refreshWith v = None → refreshOne now scp k v acc w = (acc, w).
Proof. intros Hcb. unfold refreshOne. by rewrite Hcb. Qed.

Lemma refreshOne_failed scp k v (acc : gmap string (Value ProxyConfig World)) w cb :
  refreshWith v = Some cb → is_Some (cb w).1.2 →
  refreshOne now scp k v acc w = (acc, (cb w).2).
Proof.
  intros Hcb [e He]. unfold refreshOne. rewrite Hcb. unfold bind at 1.
  destruct (cb w) as [[resp err] w1]. simpl in He. by subst err.
Qed.

Lemma refreshOne_succeeded scp k v (acc : gmap string (Value ProxyConfig World)) w cb :
  refreshWith v = Some cb → (cb w).1.2 = None →
  refreshOne now scp k v acc w =
    (<[k := mkValue (cb w).1.1 (Add (now (cb w).2).1 (ttl scp)) (Some cb)]> acc,
     (now (cb w).2).2).
Proof.
  intros Hcb He. unfold refreshOne. rewrite Hcb. unfold bind at 1.
  destruct (cb w) as [[resp err] w1]. simpl in *. subst err.
  unfold bind, ret. by rewrite getExpiryTime_eq.
Qed.

(** The three ways in which the callback of [Refresh] treats an entry. *)
Lemma refreshOne_cases scp k v (acc : gmap string (Value ProxyConfig World)) w :
  (refreshOne now scp k v acc w).1 = acc ∨
  ∃ e, (refreshOne now scp k v acc w).1 = <[k := e]> acc.
Proof.
  destruct (refreshWith v) as [cb|] eqn:Hcb.
  - destruct (cb w).1.2 as [e|] eqn:He.
    + left. by rewrite (refreshOne_failed _ _ _ _ _ cb).
    + right. eexists. by rewrite (refreshOne_succeeded _ _ _ _ _ cb).
  - left. by rewrite refreshOne_none.
Qed.

(** The scan leaves alone the keys that it does not visit. *)
Lemma refresh_scan_other scp (items : list (string * Value ProxyConfig World)) :
  ∀ (acc : gmap string (Value ProxyConfig World)) w k,
    k ∉ items.*1 →
    (IterCb items (refreshOne now scp) acc w).1 !! k = acc !! k.
Proof.
  induction items as [|[k0 v0] rest IH]; intros acc w k Hk; [done|].
  rewrite IterCb_cons, IH by set_solver.
  destruct (refreshOne_cases scp k0 v0 acc w) as [-> | [e ->]]; [done|].
  apply lookup_insert_ne. set_solver.
Qed.

(** An entry whose callback returned an error is not among the entries
    that [Refresh] collected. *)
Lemma refresh_scan_failed scp (pre post : list (string * Value ProxyConfig World))
    k v cb w :
  NoDup (pre ++ (k, v) :: post).*1 →
  refreshWith v = Some cb →
  is_Some (cb (IterCb pre (refreshOne now scp) ∅ w).2).1.2 →
  (IterCb (pre ++ (k, v) :: post) (refreshOne now scp) ∅ w).1 !! k = None.
Proof.
  intros Hnodup Hcb Hfail.
  rewrite fmap_app, fmap_cons in Hnodup. simpl in Hnodup.
  apply NoDup_app in Hnodup as (_ & Hpre & [Hpost _]%NoDup_cons).
  rewrite IterCb_app, IterCb_cons.
  rewrite (refreshOne_failed _ _ _ _ _ cb) by done. cbn [fst snd].
  rewrite refresh_scan_other by done.
  rewrite refresh_scan_other; [done|].
  intros Hin. apply (Hpre k Hin). by left.
Qed.

Lemma setEach_cons scp k v (rest : list (string * Value ProxyConfig World)) w :
  setEach now scp ((k, v) :: rest) w =
    setEach now (Set_ now scp k v w).1.2 rest (Set_ now scp k v w).2.
Proof. simpl. unfold bind. by destruct (Set_ now scp k v w). Qed.

(** [Set] either leaves the store as it is or writes the one key. *)
Lemma Set_cases scp key v w :
  (Set_ now scp key v w).1.2 = scp ∨
  (has_room scp ∧
   (Set_ now scp key v w).1.2 =
     with_cache scp (<[key := stored now scp v w]> (cache scp))).
Proof.
  destruct (has_room_dec scp) as [Hroom | [Hlim Hfull]].
  - right. by rewrite Set_room.
  - left. by rewrite Set_full.
Qed.

Lemma setEach_other (items : list (string * Value ProxyConfig World)) :
  ∀ scp w k,
    k ∉ items.*1 → cache (setEach now scp items w).1 !! k = cache scp !! k.
Proof.
  induction items as [|[k0 v0] rest IH]; intros scp w k Hk; [done|].
  rewrite setEach_cons, IH by set_solver.
  destruct (Set_cases scp k0 v0 w) as [-> | [_ ->]]; [done|].
  simpl. apply lookup_insert_ne. set_solver.
Qed.

Lemma setEach_dom (items : list (string * Value ProxyConfig World)) :
  ∀ scp w,
    (∀ k, k ∈ items.*1 → k ∈ dom (cache scp)) →
    dom (cache (setEach now scp items w).1) = dom (cache scp).
Proof.
  induction items as [|[k0 v0] rest IH]; intros scp w Hpresent; [done|].
  rewrite setEach_cons.
  assert (dom (cache (Set_ now scp k0 v0 w).1.2) = dom (cache scp)) as Hdom.
  { destruct (Set_cases scp k0 v0 w) as [-> | [_ ->]]; [done|].
    simpl. rewrite dom_insert_L.
    assert (k0 ∈ dom (cache scp)) by (apply Hpresent; set_solver).
    set_solver. }
  rewrite IH; [done|]. intros k Hk. rewrite Hdom. apply Hpresent. set_solver.
Qed.

Lemma Refresh_eq (order range : Iteration ProxyConfig World) scp w :
  Refresh now order range scp w =
    setEach now scp
      (range (IterCb (order (cache scp)) (refreshOne now scp) ∅ w).1)
      (IterCb (order (cache scp)) (refreshOne now scp) ∅ w).2.
Proof.
  unfold Refresh, bind.
  by destruct (IterCb (order (cache scp)) (refreshOne now scp) ∅ w).
Qed.

Lemma visits_all_key (it : Iteration ProxyConfig World) m k :
  visits_all it → k ∈ (it m).*1 ↔ is_Some (m !! k).
Proof.
  intros Hall. rewrite list_elem_of_fmap. split.
  - intros ([k' e] & -> & Hin). exists e. by apply (visits_all_lookup it).
  - intros [e He]. exists (k, e). split; [done|]. by apply visits_all_lookup.
Qed.

(** C4.  When the callback of the entry under [k], called by [Refresh] in
    the world that the entries visited before it left behind, returns an
    error, the store holds after [Refresh] the very same entry under [k]:
    same value, same expiry, same callback. *)
Theorem Refresh_failed_callback_keeps_entry
    (order range : Iteration ProxyConfig World) scp w pre k v post cb :
  visits_all order → visits_all range →
  order (cache scp) = pre ++ (k, v) :: post →
  refreshWith v = Some cb →
  is_Some (cb (IterCb pre (refreshOne now scp) ∅ w).2).1.2 →
  cache (Refresh now order range scp w).1 !! k = Some v ∧
  Get zeroConfig (Refresh now order range scp w).1 k = (v, true).
Proof.
  intros Horder Hrange Hsplit Hcb Hfail.
  assert (cache (Refresh now order range scp w).1 !! k = Some v) as Hkept.
  { rewrite Refresh_eq, setEach_other.
    - apply (visits_all_lookup order); [done|]. rewrite Hsplit. set_solver.
    - rewrite (visits_all_key range) by done. rewrite Hsplit.
      rewrite (refresh_scan_failed _ _ _ _ _ cb); [by intros [? ?] | | done..].
      rewrite <- Hsplit. by apply visits_all_NoDup. }
  split; [done|]. unfold Get. by rewrite Hkept.
Qed.

(** C10.  [Refresh] keeps the set of keys of the store, whatever the
    callbacks return. *)
Theorem Refresh_preserves_keys (order range : Iteration ProxyConfig World) scp w :
  visits_all order → visits_all range →
  dom (cache (Refresh now order range scp w).1) = dom (cache scp).
Proof.
  intros Horder Hrange. rewrite Refresh_eq. apply setEach_dom.
  intros k [e He]%(visits_all_key range); [|done].
  destruct (decide (k ∈ (order (cache scp)).*1)) as [Hin|Hout].
  - apply (visits_all_key order) in Hin; [|done]. by apply elem_of_dom.
  - rewrite refresh_scan_other in He by done. by rewrite lookup_empty in He.
Qed.


Lemma Set_fields scp key v w :
  limit (Set_ now scp key v w).1.2 = limit scp ∧
  ttl (Set_ now scp key v w).1.2 = ttl scp.
Proof. by destruct (Set_cases scp key v w) as [-> | [_ ->]]. Qed.

(** On a full store every [Set] of [Refresh] is refused. *)
Lemma setEach_full (items : list (string * Value ProxyConfig World)) scp w :
  0 ≤ limit scp → limit scp ≤ Count (cache scp) →
  setEach now scp items w = (scp, w).
Proof.
  intros Hlim Hfull. induction items as [|[k0 v0] rest IH]; [done|].
  by rewrite setEach_cons, Set_full.
Qed.

(** X11.  [Refresh] changes nothing in a store that is at its limit,
    whatever the callbacks returned: every [Set] it makes is refused. *)
Lemma Refresh_full_store (order range : Iteration ProxyConfig World) scp w :
  0 ≤ limit scp → limit scp ≤ Count (cache scp) →
  (Refresh now order range scp w).1 = scp.
Proof. intros Hlim Hfull. by rewrite Refresh_eq, setEach_full. Qed.

Lemma setEach_room_lookup (items : list (string * Value ProxyConfig World)) :
  ∀ scp w k e,
    has_room scp →
    (∀ k', k' ∈ items.*1 → is_Some (cache scp !! k')) →
    NoDup items.*1 →
    (k, e) ∈ items →
    IsZero (expires e) = false →
    cache (setEach now scp items w).1 !! k = Some e.
Proof.
  induction items as [|[k0 v0] rest IH]; intros scp w k e Hroom Hpresent Hnodup Hin Hnz.
  - by apply elem_of_nil in Hin.
  - rewrite setEach_cons, Set_room by done. cbn [fst snd].
    apply NoDup_cons in Hnodup as [Hk0 Hnodup].
    apply elem_of_cons in Hin as [Heq | Hin].
    + simplify_eq. rewrite setEach_other by done. simpl.
      rewrite lookup_insert_eq. unfold stored. by rewrite Hnz.
    + apply IH; [ | | done..].
      * unfold has_room in *. simpl.
        rewrite Count_insert_present; [done|]. apply Hpresent. set_solver.
      * intros k' Hk'. simpl. rewrite lookup_insert.
        case_decide; [done|]. apply Hpresent. set_solver.
Qed.

(** X12.  With room in the store, a callback that succeeded replaces the
    entry: the new payload, the expiry [now() + ttl] read right after the
    callback returned (when that is not the zero time), and the callback
    itself. *)
Lemma Refresh_success_with_room
    (order range : Iteration ProxyConfig World) scp w pre k v post cb :
  visits_all order → visits_all range →
  has_room scp →
  order (cache scp) = pre ++ (k, v) :: post →
  refreshWith v = Some cb →
  let wk := (IterCb pre (refreshOne now scp) ∅ w).2 in
  (cb wk).1.2 = None →
  IsZero (Add (now (cb wk).2).1 (ttl scp)) = false →
  Get zeroConfig (Refresh now order range scp w).1 k =
    (mkValue (cb wk).1.1 (Add (now (cb wk).2).1 (ttl scp)) (Some cb), true).
Proof.
  intros Horder Hrange Hroom Hsplit Hcb wk Hok Hnz.
  pose proof (visits_all_NoDup order (cache scp) Horder) as Hnodup.
  rewrite Hsplit, fmap_app, fmap_cons in Hnodup. simpl in Hnodup.
  apply NoDup_app in Hnodup as (_ & _ & [Hpost _]%NoDup_cons).
  set (e := mkValue (cb wk).1.1 (Add (now (cb wk).2).1 (ttl scp)) (Some cb)).
  assert ((IterCb (order (cache scp)) (refreshOne now scp) ∅ w).1 !! k = Some e)
    as Hcollected.
  { rewrite Hsplit, IterCb_app, IterCb_cons.
    rewrite (refreshOne_succeeded _ _ _ _ _ cb) by done. cbn [fst snd].
    rewrite refresh_scan_other by done. apply lookup_insert_eq. }
  unfold Get. rewrite Refresh_eq.
  rewrite (setEach_room_lookup _ _ _ k e); [done | done | | | | done].
  - intros k' [e' He']%(visits_all_key range); [|done].
    destruct (decide (k' ∈ (order (cache scp)).*1)) as [Hin|Hout].
    + by apply (visits_all_key order) in Hin.
    + rewrite refresh_scan_other in He' by done. by rewrite lookup_empty in He'.
  - by apply visits_all_NoDup.
  - by apply visits_all_lookup.
Qed.

(** *** [RunRefreshWorker] *)

(** C7.  On a cache whose flag is [0], [RunRefreshWorker] returns [nil],
    sets the flag to [1] and launches one goroutine; from then on every
    call returns the error and leaves the cache and the goroutines as they
    are.  In general a call on a cache whose flag is not [0] does so. *)
Theorem RunRefreshWorker_starts_once scp (interval : Duration) (stop : Chan)
    (workers : list Worker) :
  refreshWorkerRunning scp = 0 → 0 < interval →
  let r := RunRefreshWorker scp interval stop workers in
  r = (Returned None,
       mkConfigCache (cache scp) (limit scp) 1 stop (ttl scp),
       workers ++ [mkWorker interval stop]) ∧
  (∀ interval' stop',
     RunRefreshWorker r.1.2 interval' stop' r.2 =
       (Returned (Some alreadyStarted), r.1.2, r.2)) ∧
  (∀ (c : ConfigCache ProxyConfig World) interval' stop' ws,
     refreshWorkerRunning c ≠ 0 →
     RunRefreshWorker c interval' stop' ws = (Returned (Some alreadyStarted), c, ws)).
Proof.
  intros Hstopped Hpos.
  assert (∀ (c : ConfigCache ProxyConfig World) interval' stop' ws,
    refreshWorkerRunning c ≠ 0 →
    RunRefreshWorker c interval' stop' ws = (Returned (Some alreadyStarted), c, ws))
    as Hguard.
  { intros c interval' stop' ws Hrunning.
    unfold RunRefreshWorker, CompareAndSwapInt32.
    by destruct (Z.eqb_spec (refreshWorkerRunning c) 0). }
  assert (RunRefreshWorker scp interval stop workers =
    (Returned None, mkConfigCache (cache scp) (limit scp) 1 stop (ttl scp),
     workers ++ [mkWorker interval stop])) as Hstart.
  { unfold RunRefreshWorker, CompareAndSwapInt32. rewrite Hstopped. simpl.
    by destruct (Z.leb_spec interval 0); [lia|]. }
  cbn zeta. rewrite Hstart. split; [done|]. split; [|done].
  intros interval' stop'. by apply Hguard.
Qed.


(** *** Zero expiry *)

Lemma stored_zero_inv scp v w :
  IsZero (expires (stored now scp v w)) = true →
  IsZero (expires v) = true ∧ IsZero (Add (now w).1 (ttl scp)) = true.
Proof. unfold stored. destruct (IsZero (expires v)) eqn:Hz; simpl; by rewrite ?Hz. Qed.

Lemma Set_no_zero_expiry scp key v w :
  (∀ w', IsZero (Add (now w').1 (ttl scp)) = false) →
  no_zero_expiry scp → no_zero_expiry (Set_ now scp key v w).1.2.
Proof.
  intros Hclock Hinv.
  destruct (Set_cases scp key v w) as [-> | [_ ->]]; [done|].
  intros k e. simpl. rewrite lookup_insert. case_decide; [|by apply Hinv].
  intros [= <-]. destruct (IsZero (expires (stored now scp v w))) eqn:Hz; [|done].
  apply stored_zero_inv in Hz as [_ Hz]. by rewrite Hclock in Hz.
Qed.

Lemma setEach_no_zero_expiry (items : list (string * Value ProxyConfig World)) :
  ∀ scp w,
    (∀ w', IsZero (Add (now w').1 (ttl scp)) = false) →
    no_zero_expiry scp → no_zero_expiry (setEach now scp items w).1.
Proof.
  induction items as [|[k0 v0] rest IH]; intros scp w Hclock Hinv; [done|].
  rewrite setEach_cons. apply IH.
  - by destruct (Set_fields scp k0 v0 w) as [_ ->].
  - by apply Set_no_zero_expiry.
Qed.

Lemma foldl_Delete_no_zero_expiry (del : list string) scp :
  no_zero_expiry scp → no_zero_expiry (foldl Delete scp del).
Proof.
  intros Hinv k e. rewrite foldl_Delete_lookup.
  destruct (decide (k ∈ del)); [done | apply Hinv].
Qed.

(** C9 (as amended).  [Set] takes a zero expiry for an expiry that was
    not given and stores [now() + ttl] in its place.  An entry that [Set]
    stored has a zero expiry only when the value passed had one and
    [now() + ttl] was the zero time as well.  So, as long as the clock does
    not read the instant [-ttl], a store without zero expiries stays one
    through [Set], [Delete], [FlushExpired] and [Refresh]; the new store is
    one. *)
Theorem zero_expiry_is_replaced scp key v w :
  (IsZero (expires v) = true → has_room scp →
     Set_ now scp key v w =
       ((None,
         with_cache scp (<[key := SetExpiry v (Add (now w).1 (ttl scp))]> (cache scp))),
        (now w).2)) ∧
  (∀ scp' w' e,
     Set_ now scp key v w = ((None, scp'), w') →
     cache scp' !! key = Some e →
     IsZero (expires e) = true →
     IsZero (expires v) = true ∧ IsZero (Add (now w).1 (ttl scp)) = true) ∧
  ((∀ w', IsZero (Add (now w').1 (ttl scp)) = false) →
   no_zero_expiry scp →
     no_zero_expiry (Set_ now scp key v w).1.2 ∧
     no_zero_expiry (Delete scp key) ∧
     (∀ order : Iteration ProxyConfig World,
        no_zero_expiry (FlushExpired now order scp w).1) ∧
     (∀ order range : Iteration ProxyConfig World,
        no_zero_expiry (Refresh now order range scp w).1)) ∧
  (∀ (ttl0 : Duration) (maxEntries : Z),
     no_zero_expiry (NewConfigCache (ProxyConfig := ProxyConfig) (World := World)
                       ttl0 maxEntries)).
Proof.
  split; [|split; [|split]].
  - intros Hzero Hroom. rewrite Set_room by done.
    unfold stored, after_store. by rewrite Hzero.
  - intros scp' w' e (_ & -> & _)%Set_nil_inv. simpl. rewrite lookup_insert_eq.
    intros [= <-]. apply stored_zero_inv.
  - intros Hclock Hinv. split; [by apply Set_no_zero_expiry|]. split; [|split].
    + apply (foldl_Delete_no_zero_expiry [key]), Hinv.
    + intros order. rewrite FlushExpired_eq. by apply foldl_Delete_no_zero_expiry.
    + intros order range. rewrite Refresh_eq. by apply setEach_no_zero_expiry.
  - intros ttl0 maxEntries k e. simpl. by rewrite lookup_empty.
Qed.


(** *** [Delete] *)

Lemma with_cache_same scp : with_cache scp (cache scp) = scp.
Proof. by destruct scp. Qed.

Lemma Count_delete_present (m : gmap string (Value ProxyConfig World)) key :
  is_Some (m !! key) → Count (delete key m) = Count m - 1.
Proof.
  intros Hpresent. unfold Count. rewrite map_size_delete_Some by done.
  assert (size m ≠ 0%nat); [|lia].
  apply map_size_non_empty_iff. intros ->. rewrite lookup_empty in Hpresent.
  by destruct Hpresent.
Qed.

Lemma Count_delete_le (m : gmap string (Value ProxyConfig World)) key :
  Count (delete key m) ≤ Count m.
Proof.
  unfold Count. apply inj_le, map_subseteq_size, delete_subseteq.
Qed.

(** X1.  After [Delete] of a key, [Get] on that key finds nothing; the
    other keys, the limit and the TTL are as before; deleting a key that is
    present lowers the entry count by one, and deleting an absent key
    leaves the whole cache as it was. *)
Theorem Delete_removes_only_key scp key :
  Get zeroConfig (Delete scp key) key = (zeroValue zeroConfig, false) ∧
  (∀ other, other ≠ key →
     Get zeroConfig (Delete scp key) other = Get zeroConfig scp other) ∧
  (is_Some (cache scp !! key) →
     Count (cache (Delete scp key)) = Count (cache scp) - 1) ∧
  (cache scp !! key = None → Delete scp key = scp) ∧
  limit (Delete scp key) = limit scp ∧ ttl (Delete scp key) = ttl scp.
Proof.
  split; [|split; [|split; [|split]]].
  - unfold Get, Delete. simpl. by rewrite lookup_delete_eq.
  - intros other Hother. unfold Get, Delete. simpl. by rewrite lookup_delete_ne.
  - intros Hpresent. by apply Count_delete_present.
  - intros Habsent. unfold Delete. rewrite delete_id by done. apply with_cache_same.
  - done.
Qed.

(** X2.  Deleting an entry makes room: on a store that respects its
    non-negative limit, after [Delete] of a key that is present, [Set] of
    any key returns [nil] and [Get] finds what was stored. *)
Theorem Delete_frees_capacity scp key key' v w :
  0 ≤ limit scp → Count (cache scp) ≤ limit scp →
  is_Some (cache scp !! key) →
  ∃ scp',
    Set_ now (Delete scp key) key' v w = ((None, scp'), after_store now v w) ∧
    Get zeroConfig scp' key' = (stored now scp v w, true).
Proof.
  intros Hlim Hcount Hpresent. eexists. split.
  - apply Set_room. right. simpl. rewrite Count_delete_present by done. lia.
  - unfold Get. simpl. by rewrite lookup_insert_eq.
Qed.

(** X3.  A [Set] that stored a new key is undone by [Delete]: the cache is
    again the one before the [Set]. *)
Theorem Delete_undoes_Set scp key v w scp' w' :
  cache scp !! key = None →
  Set_ now scp key v w = ((None, scp'), w') →
  Delete scp' key = scp.
Proof.
  intros Hnew (_ & -> & _)%Set_nil_inv.
  unfold Delete, with_cache. simpl. rewrite delete_insert_id by done.
  by destruct scp.
Qed.

(** *** What [Set] leaves alone *)

(** X4.  [Set] changes at most the entry under its key: every other key,
    the limit, the TTL, the worker flag and the stop channel are as before.
    A [Set] that returns an error changes nothing and does not read the
    clock; neither does the clock get read for a value that carries an
    expiry. *)
Theorem Set_frame scp key v w :
  let r := Set_ now scp key v w in
  (∀ other, other ≠ key → cache r.1.2 !! other = cache scp !! other) ∧
  limit r.1.2 = limit scp ∧ ttl r.1.2 = ttl scp ∧
  refreshWorkerRunning r.1.2 = refreshWorkerRunning scp ∧
  stopRefreshWorker r.1.2 = stopRefreshWorker scp ∧
  (is_Some r.1.1 → r.1.2 = scp ∧ r.2 = w) ∧
  (IsZero (expires v) = false → r.2 = w).
Proof.
  cbn zeta. destruct (has_room_dec scp) as [Hroom | [Hlim Hfull]].
  - rewrite Set_room by done. cbn [fst snd].
    split; [|split_and!; try done].
    + intros other Hother. simpl. by rewrite lookup_insert_ne.
    + intros Hgiven. unfold after_store. by rewrite Hgiven.
  - rewrite Set_full by done. cbn [fst snd]. by split_and!.
Qed.

(** *** The limit *)

Lemma Set_within_limit scp key v w :
  within_limit scp → within_limit (Set_ now scp key v w).1.2.
Proof.
  intros Hwithin. destruct (Set_cases scp key v w) as [-> | [Hroom ->]]; [done|].
  destruct Hroom as [Hneg | Hbelow]; [by left | right]. simpl.
  destruct (cache scp !! key) as [old|] eqn:Hlookup.
  - rewrite Count_insert_present by done. lia.
  - rewrite Count_insert_absent by done. lia.
Qed.

Lemma setEach_within_limit (items : list (string * Value ProxyConfig World)) :
  ∀ scp w, within_limit scp → within_limit (setEach now scp items w).1.
Proof.
  induction items as [|[k0 v0] rest IH]; intros scp w Hwithin; [done|].
  rewrite setEach_cons. by apply IH, Set_within_limit.
Qed.

Lemma Delete_within_limit scp key :
  within_limit scp → within_limit (Delete scp key).
Proof.
  intros [Hneg | Hle]; [by left | right]. simpl.
  pose proof (Count_delete_le (cache scp) key). lia.
Qed.

Lemma foldl_Delete_within_limit (del : list string) :
  ∀ scp, within_limit scp → within_limit (foldl Delete scp del).
Proof.
  induction del as [|k0 del IH]; intros scp Hwithin; [done|].
  simpl. by apply IH, Delete_within_limit.
Qed.

(** X5.  The cache never grows past its limit: a new cache respects its
    limit, and [Set], [Delete], [FlushExpired] and [Refresh] all turn a
    store that respects its limit into one that does. *)
Theorem limit_is_respected scp key v w :
  within_limit scp →
  within_limit (Set_ now scp key v w).1.2 ∧
  within_limit (Delete scp key) ∧
  (∀ order : Iteration ProxyConfig World,
     within_limit (FlushExpired now order scp w).1) ∧
  (∀ order range : Iteration ProxyConfig World,
     within_limit (Refresh now order range scp w).1) ∧
  (∀ (ttl0 : Duration) (maxEntries : Z),
     within_limit (NewConfigCache (ProxyConfig := ProxyConfig) (World := World)
                     ttl0 maxEntries)).
Proof.
  intros Hwithin. split; [by apply Set_within_limit|].
  split; [by apply Delete_within_limit|]. split; [|split].
  - intros order. rewrite FlushExpired_eq. by apply foldl_Delete_within_limit.
  - intros order range. rewrite Refresh_eq. by apply setEach_within_limit.
  - intros ttl0 maxEntries. unfold within_limit, Count. simpl.
    rewrite map_size_empty. lia.
Qed.


(** *** More on [FlushExpired] *)

Lemma tick_add (n m : nat) : ∀ w, tick now n (tick now m w) = tick now (m + n) w.
Proof. induction m as [|m IH]; intros w; [done|]. simpl. apply IH. Qed.

(** The fate of the entry that [FlushExpired] visits after [pre]. *)
Lemma FlushExpired_visit (order : Iteration ProxyConfig World) scp w pre k v post :
  visits_all order →
  order (cache scp) = pre ++ (k, v) :: post →
  cache (FlushExpired now order scp w).1 !! k =
    if After (now (tick now (length pre) w)).1 (expires v) then None else Some v.
Proof.
  intros Hall Hsplit. rewrite FlushExpired_eq. cbn [fst].
  destruct (noteExpired_scan (order (cache scp)) [] w) as (_ & del & Hdel & Hmem).
  cbn zeta in Hdel. rewrite Hdel. cbn [app]. rewrite foldl_Delete_lookup.
  assert (cache scp !! k = Some v) as Hlookup.
  { apply (visits_all_lookup order); [done|]. rewrite Hsplit.
    apply elem_of_app. right. by left. }
  destruct (decide (k ∈ del)) as [Hin|Hout].
  - apply Hmem in Hin as (pre' & v' & post' & Hsplit' & Hafter).
    destruct (split_unique _ _ _ _ _ _ _ _ (visits_all_NoDup order _ Hall) Hsplit Hsplit')
      as (-> & -> & _).
    by rewrite Hafter.
  - destruct (After _ _) eqn:Hafter; [|done].
    exfalso. apply Hout, Hmem. by exists pre, v, post.
Qed.

Lemma FlushExpired_world (order : Iteration ProxyConfig World) scp w :
  (FlushExpired now order scp w).2 = tick now (length (order (cache scp))) w.
Proof.
  rewrite FlushExpired_eq. cbn [snd].
  by destruct (noteExpired_scan (order (cache scp)) [] w) as (-> & _).
Qed.

(** Under a clock that reads [t] all along, [FlushExpired] keeps the
    entries that expire at [t] or later. *)
Lemma FlushExpired_frozen (order : Iteration ProxyConfig World) scp w t :
  visits_all order →
  (∀ n, (now (tick now n w)).1 = t) →
  cache (FlushExpired now order scp w).1 = filter (λ kv, t ≤ expires kv.2) (cache scp).
Proof.
  intros Hall Hfrozen. apply map_eq. intros k.
  destruct (cache scp !! k) as [v|] eqn:Hlookup.
  - assert ((k, v) ∈ order (cache scp)) as Hin by by apply visits_all_lookup.
    apply list_elem_of_split in Hin as (pre & post & Hsplit).
    rewrite (FlushExpired_visit _ _ _ _ _ _ _ Hall Hsplit), Hfrozen. unfold After.
    destruct (expires v <? t) eqn:Hlt.
    + symmetry. apply map_lookup_filter_None. right. intros v' Hv'.
      simplify_eq. simpl. apply Z.ltb_lt in Hlt. lia.
    + symmetry. apply map_lookup_filter_Some. split; [done|].
      simpl. apply Z.ltb_ge in Hlt. lia.
  - rewrite FlushExpired_eq. cbn [fst]. rewrite foldl_Delete_lookup, Hlookup.
    transitivity (@None (Value ProxyConfig World)); [by destruct (decide _)|].
    symmetry. apply map_lookup_filter_None. by left.
Qed.

(** X6.  Whatever the clock does between two readings: an entry whose
    expiry is before every reading that [FlushExpired] makes is removed, and
    [Get] no longer finds it; an entry whose expiry is not before any of
    them is kept as it is. *)
Theorem FlushExpired_by_clock_bounds (order : Iteration ProxyConfig World) scp w k v :
  visits_all order →
  cache scp !! k = Some v →
  let readings := length (order (cache scp)) in
  let r := FlushExpired now order scp w in
  ((∀ i, (i < readings)%nat → expires v < (now (tick now i w)).1) →
     Get zeroConfig r.1 k = (zeroValue zeroConfig, false)) ∧
  ((∀ i, (i < readings)%nat → (now (tick now i w)).1 ≤ expires v) →
     Get zeroConfig r.1 k = (v, true)).
Proof.
  intros Hall Hlookup readings r.
  assert ((k, v) ∈ order (cache scp)) as Hin by by apply visits_all_lookup.
  apply list_elem_of_split in Hin as (pre & post & Hsplit).
  assert (length pre < readings)%nat as Hpos.
  { unfold readings. rewrite Hsplit, length_app. simpl. lia. }
  unfold r, Get. rewrite (FlushExpired_visit _ _ _ _ _ _ _ Hall Hsplit). unfold After.
  split; intros Hbound; specialize (Hbound _ Hpos).
  - by destruct (Z.ltb_spec (expires v) (now (tick now (length pre) w)).1); [|lia].
  - by destruct (Z.ltb_spec (expires v) (now (tick now (length pre) w)).1); [lia|].
Qed.

(** X7.  [FlushExpired] only removes: whatever the order of the visit,
    every entry of the store afterwards is an entry of the store before, so
    the entry count does not grow; the limit, the TTL and the worker flag
    are as before. *)
Theorem FlushExpired_only_removes (order : Iteration ProxyConfig World) scp w :
  let r := FlushExpired now order scp w in
  cache r.1 ⊆ cache scp ∧
  Count (cache r.1) ≤ Count (cache scp) ∧
  limit r.1 = limit scp ∧ ttl r.1 = ttl scp ∧
  refreshWorkerRunning r.1 = refreshWorkerRunning scp.
Proof.
  cbn zeta. rewrite FlushExpired_eq. cbn [fst].
  set (del := (IterCb (order (cache scp)) noteExpired [] w).1).
  assert (cache (foldl Delete scp del) ⊆ cache scp) as Hsub.
  { apply map_subseteq_spec. intros k e. rewrite foldl_Delete_lookup.
    by destruct (decide (k ∈ del)). }
  split; [done|]. split.
  - unfold Count. by apply inj_le, map_subseteq_size.
  - by destruct (foldl_Delete_fields del scp) as (-> & -> & -> & _).
Qed.

(** X8.  Under a clock that stands still, a second [FlushExpired] finds
    nothing left to remove. *)
Theorem FlushExpired_twice (order : Iteration ProxyConfig World) scp w t :
  visits_all order →
  (∀ n, (now (tick now n w)).1 = t) →
  let r := FlushExpired now order scp w in
  cache (FlushExpired now order r.1 r.2).1 = cache r.1.
Proof.
  intros Hall Hfrozen r.
  rewrite (FlushExpired_frozen order r.1 r.2 t Hall).
  - apply map_filter_id. intros k e. unfold r.
    rewrite (FlushExpired_frozen order scp w t Hall Hfrozen).
    by intros [_ ?]%map_lookup_filter_Some.
  - intros n. unfold r. rewrite FlushExpired_world, tick_add. apply Hfrozen.
Qed.


(** *** More on [Refresh] *)

Lemma refresh_scan_no_callbacks scp (items : list (string * Value ProxyConfig World)) :
  ∀ (acc : gmap string (Value ProxyConfig World)) w,
    (∀ k v, (k, v) ∈ items → refreshWith v = None) →
    IterCb items (refreshOne now scp) acc w = (acc, w).
Proof.
  induction items as [|[k0 v0] rest IH]; intros acc w Hnone; [done|].
  rewrite IterCb_cons, refreshOne_none by (apply (Hnone k0); by left).
  apply IH. intros k v Hin. apply (Hnone k). by right.
Qed.

Lemma refresh_scan_skipped scp (pre post : list (string * Value ProxyConfig World)) k v w :
  NoDup (pre ++ (k, v) :: post).*1 →
  refreshWith v = None →
  (IterCb (pre ++ (k, v) :: post) (refreshOne now scp) ∅ w).1 !! k = None.
Proof.
  intros Hnodup Hcb.
  rewrite fmap_app, fmap_cons in Hnodup. simpl in Hnodup.
  apply NoDup_app in Hnodup as (_ & Hpre & [Hpost _]%NoDup_cons).
  rewrite IterCb_app, IterCb_cons, refreshOne_none by done. cbn [fst snd].
  rewrite refresh_scan_other by done.
  rewrite refresh_scan_other; [done|].
  intros Hin. apply (Hpre k Hin). by left.
Qed.

(** X9.  [Refresh] leaves alone the entries that carry no callback; on a
    store where no entry carries one, [Refresh] changes nothing and does not
    read the clock. *)
Theorem Refresh_without_callback (order range : Iteration ProxyConfig World) scp w :
  visits_all order → visits_all range →
  (∀ k v, cache scp !! k = Some v → refreshWith v = None →
     Get zeroConfig (Refresh now order range scp w).1 k = (v, true)) ∧
  ((∀ k v, cache scp !! k = Some v → refreshWith v = None) →
     Refresh now order range scp w = (scp, w)).
Proof.
  intros Horder Hrange. split.
  - intros k v Hlookup Hcb. unfold Get. rewrite Refresh_eq, setEach_other.
    + by rewrite Hlookup.
    + rewrite (visits_all_key range) by done.
      assert ((k, v) ∈ order (cache scp)) as Hin by by apply visits_all_lookup.
      apply list_elem_of_split in Hin as (pre & post & Hsplit).
      rewrite Hsplit, refresh_scan_skipped; [by intros [? ?] | | done].
      rewrite <- Hsplit. by apply visits_all_NoDup.
  - intros Hnone. rewrite Refresh_eq, refresh_scan_no_callbacks.
    + cbn [fst snd].
      assert (range ∅ = []) as ->; [|done].
      apply Permutation_nil_r. by rewrite (Hrange ∅), map_to_list_empty.
    + intros k v Hin. apply (Hnone k). by apply (visits_all_lookup order).
Qed.

Lemma refreshOne_entry scp k v (acc : gmap string (Value ProxyConfig World)) w :
  (refreshOne now scp k v acc w).1 = acc ∨
  ∃ e, refreshWith e = refreshWith v ∧ (refreshOne now scp k v acc w).1 = <[k := e]> acc.
Proof.
  destruct (refreshWith v) as [cb|] eqn:Hcb.
  - destruct (cb w).1.2 as [e|] eqn:He.
    + left. by rewrite (refreshOne_failed _ _ _ _ _ cb).
    + right. eexists. rewrite (refreshOne_succeeded _ _ _ _ _ cb) by done.
      split; [|done]. done.
  - left. by rewrite refreshOne_none.
Qed.

(** Every entry that the scan collected carries the callback of the entry
    it was made from. *)
Lemma refresh_scan_entry scp (items : list (string * Value ProxyConfig World)) :
  ∀ (acc : gmap string (Value ProxyConfig World)) w k e',
    (IterCb items (refreshOne now scp) acc w).1 !! k = Some e' →
    acc !! k = Some e' ∨ ∃ v, (k, v) ∈ items ∧ refreshWith e' = refreshWith v.
Proof.
  induction items as [|[k0 v0] rest IH]; intros acc w k e' Hlookup; [by left|].
  rewrite IterCb_cons in Hlookup. apply IH in Hlookup as [Hacc | (v & Hin & Hcb)].
  - destruct (refreshOne_entry scp k0 v0 acc w) as [Heq | (e & Hcb & Heq)];
      rewrite Heq in Hacc; [by left|].
    rewrite lookup_insert in Hacc. case_decide; [|by left].
    simplify_eq. right. exists v0. split; [by left | done].
  - right. exists v. split; [by right | done].
Qed.

Lemma setEach_entry (items : list (string * Value ProxyConfig World)) :
  ∀ scp w k e',
    cache (setEach now scp items w).1 !! k = Some e' →
    cache scp !! k = Some e' ∨ ∃ e, (k, e) ∈ items ∧ refreshWith e' = refreshWith e.
Proof.
  induction items as [|[k0 v0] rest IH]; intros scp w k e' Hlookup; [by left|].
  rewrite setEach_cons in Hlookup. apply IH in Hlookup as [Hscp | (e & Hin & Hcb)].
  - destruct (Set_cases scp k0 v0 w) as [Heq | [_ Heq]]; rewrite Heq in Hscp; [by left|].
    simpl in Hscp. rewrite lookup_insert in Hscp. case_decide; [|by left].
    simplify_eq. right. exists v0. split; [by left|].
    unfold stored. by destruct (IsZero (expires v0)).
  - right. exists e. split; [by right | done].
Qed.

Lemma setEach_fields (items : list (string * Value ProxyConfig World)) :
  ∀ scp w,
    limit (setEach now scp items w).1 = limit scp ∧
    ttl (setEach now scp items w).1 = ttl scp ∧
    refreshWorkerRunning (setEach now scp items w).1 = refreshWorkerRunning scp ∧
    stopRefreshWorker (setEach now scp items w).1 = stopRefreshWorker scp.
Proof.
  induction items as [|[k0 v0] rest IH]; intros scp w; [done|].
  rewrite setEach_cons.
  destruct (IH (Set_ now scp k0 v0 w).1.2 (Set_ now scp k0 v0 w).2) as (-> & -> & -> & ->).
  by destruct (Set_cases scp k0 v0 w) as [-> | [_ ->]].
Qed.

(** X10.  [Refresh] never changes the callback of an entry: each entry of
    the store afterwards carries the callback that the entry under the same
    key carried before.  The entry count, the limit, the TTL, the worker
    flag and the stop channel are as before. *)
Theorem Refresh_keeps_callbacks (order range : Iteration ProxyConfig World) scp w :
  visits_all order → visits_all range →
  let r := Refresh now order range scp w in
  (∀ k e', cache r.1 !! k = Some e' →
     ∃ e, cache scp !! k = Some e ∧ refreshWith e' = refreshWith e) ∧
  Count (cache r.1) = Count (cache scp) ∧
  limit r.1 = limit scp ∧ ttl r.1 = ttl scp ∧
  refreshWorkerRunning r.1 = refreshWorkerRunning scp ∧
  stopRefreshWorker r.1 = stopRefreshWorker scp.
Proof.
  intros Horder Hrange. cbn zeta. rewrite Refresh_eq.
  set (scan := IterCb (order (cache scp)) (refreshOne now scp) ∅ w).
  assert (∀ k e, (k, e) ∈ range scan.1 →
    ∃ v, cache scp !! k = Some v ∧ refreshWith e = refreshWith v) as Hcollected.
  { intros k e Hin%(visits_all_lookup range); [|done].
    apply refresh_scan_entry in Hin as [Hempty | (v & Hin & Hcb)].
    - by rewrite lookup_empty in Hempty.
    - exists v. split; [|done]. by apply (visits_all_lookup order). }
  split; [|split].
  - intros k e' [Hold | (e & Hin & Hcb)]%setEach_entry; [by exists e'|].
    destruct (Hcollected k e Hin) as (v & Hlookup & Hcb').
    exists v. split; [done|]. by rewrite Hcb.
  - unfold Count. f_equal.
    rewrite <- !(size_dom (D := gset string)). f_equal.
    apply setEach_dom. intros k ([k' e] & -> & Hin)%list_elem_of_fmap.
    destruct (Hcollected k' e Hin) as (v & Hlookup & _). simpl.
    apply elem_of_dom. by exists v.
  - apply setEach_fields.
Qed.

(** *** More on [RunRefreshWorker] *)


(** X14.  A first call of [RunRefreshWorker] with an interval that is not
    positive panics in [time.NewTicker] after the flag was set: no worker
    is launched, and every later call, also one with a proper interval, is
    refused. *)
Theorem RunRefreshWorker_bad_interval scp (interval : Duration) (stop : Chan)
    (workers : list Worker) :
  refreshWorkerRunning scp = 0 → interval ≤ 0 →
  let r := RunRefreshWorker scp interval stop workers in
  r.1.1 = Panicked ∧ r.2 = workers ∧
  refreshWorkerRunning r.1.2 = 1 ∧ cache r.1.2 = cache scp ∧
  (∀ interval' stop',
     RunRefreshWorker r.1.2 interval' stop' r.2 =
       (Returned (Some alreadyStarted), r.1.2, r.2)).
Proof.
  intros Hstopped Hbad. cbn zeta.
  assert (RunRefreshWorker scp interval stop workers =
    (Panicked, mkConfigCache (cache scp) (limit scp) 1 stop (ttl scp), workers)) as ->.
  { unfold RunRefreshWorker, CompareAndSwapInt32. rewrite Hstopped. simpl.
    by destruct (Z.leb_spec interval 0); [|lia]. }
  by repeat split.
Qed.


(** *** The expiry and the callback that a caller sets *)

(** X19.  An expiry set with [SetExpiry] decides what [FlushExpired] does
    with the entry: [Set] stores a non-zero expiry as it is, without reading
    the clock; [FlushExpired] then removes the entry when that expiry is
    before every reading of the clock, and keeps it when it is before
    none. *)
Theorem SetExpiry_decides_flush (order : Iteration ProxyConfig World)
    scp key v (t : Time) w scp' w' :
  visits_all order →
  IsZero t = false →
  Set_ now scp key (SetExpiry v t) w = ((None, scp'), w') →
  let readings := length (order (cache scp')) in
  let r := FlushExpired now order scp' w' in
  w' = w ∧
  ((∀ i, (i < readings)%nat → t < (now (tick now i w')).1) →
     Get zeroConfig r.1 key = (zeroValue zeroConfig, false)) ∧
  ((∀ i, (i < readings)%nat → (now (tick now i w')).1 ≤ t) →
     Get zeroConfig r.1 key = (SetExpiry v t, true)).
Proof.
  intros Hall Hnz (_ & -> & ->)%Set_nil_inv readings r.
  assert (stored now scp (SetExpiry v t) w = SetExpiry v t) as Hstored.
  { unfold stored. simpl. by rewrite Hnz. }
  assert (after_store now (SetExpiry v t) w = w) as Hworld.
  { unfold after_store. simpl. by rewrite Hnz. }
  split; [done|]. revert readings r. rewrite Hstored, Hworld. intros readings r.
  set (scp' := with_cache scp (<[key := SetExpiry v t]> (cache scp))) in *.
  assert ((key, SetExpiry v t) ∈ order (cache scp')) as Hin.
  { apply visits_all_lookup; [done|]. apply lookup_insert_eq. }
  apply list_elem_of_split in Hin as (pre & post & Hsplit).
  assert (length pre < readings)%nat as Hpos.
  { unfold readings. rewrite Hsplit, length_app. simpl. lia. }
  unfold r, Get. rewrite (FlushExpired_visit _ _ _ _ _ _ _ Hall Hsplit).
  unfold After. simpl.
  split; intros Hbound; specialize (Hbound _ Hpos).
  - by destruct (Z.ltb_spec t (now (tick now (length pre) w)).1); [|lia].
  - by destruct (Z.ltb_spec t (now (tick now (length pre) w)).1); [lia|].
Qed.

(** The entry that [Refresh] leaves under [k] when the callback succeeded
    and the store has room. *)
Lemma Refresh_applies_success
    (order range : Iteration ProxyConfig World) scp w pre k v post cb :
  visits_all order → visits_all range →
  has_room scp →
  order (cache scp) = pre ++ (k, v) :: post →
  refreshWith v = Some cb →
  let wk := (IterCb pre (refreshOne now scp) ∅ w).2 in
  (cb wk).1.2 = None →
  IsZero (Add (now (cb wk).2).1 (ttl scp)) = false →
  cache (Refresh now order range scp w).1 !! k =
    Some (mkValue (cb wk).1.1 (Add (now (cb wk).2).1 (ttl scp)) (Some cb)).
Proof.
  intros Horder Hrange Hroom Hsplit Hcb wk Hok Hnz.
  pose proof (visits_all_NoDup order (cache scp) Horder) as Hnodup.
  rewrite Hsplit, fmap_app, fmap_cons in Hnodup. simpl in Hnodup.
  apply NoDup_app in Hnodup as (_ & _ & [Hpost _]%NoDup_cons).
  set (e := mkValue (cb wk).1.1 (Add (now (cb wk).2).1 (ttl scp)) (Some cb)).
  assert ((IterCb (order (cache scp)) (refreshOne now scp) ∅ w).1 !! k = Some e)
    as Hcollected.
  { rewrite Hsplit, IterCb_app, IterCb_cons.
    rewrite (refreshOne_succeeded _ _ _ _ _ cb) by done. cbn [fst snd].
    rewrite refresh_scan_other by done. apply lookup_insert_eq. }
  rewrite Refresh_eq.
  apply setEach_room_lookup; [done | | | | done].
  - intros k' [e' He']%(visits_all_key range); [|done].
    destruct (decide (k' ∈ (order (cache scp)).*1)) as [Hin|Hout].
    + by apply (visits_all_key order) in Hin.
    + rewrite refresh_scan_other in He' by done. by rewrite lookup_empty in He'.
  - by apply visits_all_NoDup.
  - by apply visits_all_lookup.
Qed.

(** X20.  A callback set with [SetRefreshCallback] is the one that
    [Refresh] uses: in a cache without limit, after [Set] of a value that
    carries a callback which returns no error, [Refresh] puts under the key
    a payload that the callback returned, with the expiry [now() + ttl] read
    after the callback, and the entry keeps the callback. *)
Theorem SetRefreshCallback_is_used (order range : Iteration ProxyConfig World)
    scp key v (cb : RefreshCb ProxyConfig World) w :
  visits_all order → visits_all range →
  limit scp < 0 →
  (∀ w0, (cb w0).1.2 = None) →
  (∀ w0, IsZero (Add (now w0).1 (ttl scp)) = false) →
  let r := Set_ now scp key (SetRefreshCallback v (Some cb)) w in
  r.1.1 = None ∧
  ∃ w0,
    Get zeroConfig (Refresh now order range r.1.2 r.2).1 key =
      (mkValue (cb w0).1.1 (Add (now (cb w0).2).1 (ttl scp)) (Some cb), true).
Proof.
  intros Horder Hrange Hneg Hok Hclock. cbn zeta.
  rewrite Set_room by by left. cbn [fst snd]. split; [done|].
  set (v' := stored now scp (SetRefreshCallback v (Some cb)) w).
  set (scp' := with_cache scp (<[key := v']> (cache scp))).
  assert (refreshWith v' = Some cb) as Hcb.
  { unfold v', stored. by destruct (IsZero _). }
  assert ((key, v') ∈ order (cache scp')) as Hin.
  { apply visits_all_lookup; [done|]. apply lookup_insert_eq. }
  apply list_elem_of_split in Hin as (pre & post & Hsplit).
  exists (IterCb pre (refreshOne now scp') ∅
            (after_store now (SetRefreshCallback v (Some cb)) w)).2.
  unfold Get.
  rewrite (Refresh_applies_success order range scp' _ pre key v' post cb); try done.
  by left.
Qed.


(** *** Many insertions *)

Lemma insertAll_other (items : list (string * Value ProxyConfig World)) :
  ∀ scp w k,
    k ∉ items.*1 → cache (insertAll now scp items w).1.2 !! k = cache scp !! k.
Proof.
  induction items as [|[k0 v0] rest IH]; intros scp w k Hk; [done|].
  rewrite insertAll_cons. cbn zeta. cbn [fst snd].
  rewrite fmap_cons in Hk. apply not_elem_of_cons in Hk as [Hne Hk].
  rewrite IH by done.
  destruct (Set_cases scp k0 v0 w) as [-> | [_ ->]]; [done|].
  simpl. by apply lookup_insert_ne.
Qed.

Lemma insertAll_limit (items : list (string * Value ProxyConfig World)) :
  ∀ scp w, limit (insertAll now scp items w).1.2 = limit scp.
Proof.
  induction items as [|[k0 v0] rest IH]; intros scp w; [done|].
  rewrite insertAll_cons. cbn zeta. cbn [fst snd]. rewrite IH.
  by destruct (Set_fields scp k0 v0 w).
Qed.

(** X21.  In a cache without limit, such as the one that
    [NewDefaultConfigCache] returns, every entry of a sequence of insertions
    under distinct keys is found afterwards: [Get] returns it with its
    payload, its callback, and its expiry when it had one. *)
Theorem insertAll_then_Get (items : list (string * Value ProxyConfig World)) scp w k v :
  limit scp < 0 →
  NoDup items.*1 →
  (k, v) ∈ items →
  ∃ e, Get zeroConfig (insertAll now scp items w).1.2 k = (e, true) ∧
    Item e = Item v ∧ refreshWith e = refreshWith v ∧
    (IsZero (expires v) = false → expires e = expires v).
Proof.
  revert scp w. induction items as [|[k0 v0] rest IH]; intros scp w Hneg Hnodup Hin.
  - by apply elem_of_nil in Hin.
  - rewrite insertAll_cons. cbn zeta. cbn [fst snd].
    apply NoDup_cons in Hnodup as [Hk0 Hnodup].
    apply elem_of_cons in Hin as [Heq | Hin].
    + injection Heq as -> ->. exists (stored now scp v0 w). unfold Get.
      rewrite insertAll_other by done.
      rewrite Set_room by by left. simpl. rewrite lookup_insert_eq.
      split; [done|]. unfold stored.
      destruct (IsZero (expires v0)); by repeat split.
    + apply IH; [|done..].
      by destruct (Set_fields scp k0 v0 w) as [-> _].
Qed.

End properties.

(** ** Properties of the authorizer *)

Section authorizer_properties.
Import Authorizer.
Context {World : Type} `{Imports World}.
Local Open Scope string_scope.

(** The step of the loop of [generateMetrics]. *)
Local Abbreviation countRule path method :=
  (λ (metrics : Metrics) (pr : ProxyRule),
     let '(matched, err) := MatchString (Pattern pr) path in
     match err with
     | None =>
         if matched && bool_decide (ToUpper (HTTPMethod pr) = ToUpper method)
         then MetricsAdd metrics (MetricSystemName pr) (int (Delta pr))
         else metrics
     | Some _ => metrics
     end).

Lemma countRule_applies path method (metrics : Metrics) pr :
  countRule path method metrics pr =
    if applies path method pr
    then MetricsAdd metrics (MetricSystemName pr) (int (Delta pr))
    else metrics.
Proof.
  unfold applies. destruct (MatchString (Pattern pr) path) as [matched [err|]]; done.
Qed.

Lemma generateMetrics_fold path method (rules : list ProxyRule) :
  ∀ metrics : Metrics,
    foldl (countRule path method) metrics rules =
      foldl (λ metrics pr, MetricsAdd metrics (MetricSystemName pr) (int (Delta pr)))
        metrics (filter (λ pr, applies path method pr = true) rules).
Proof.
  induction rules as [|pr rules IH]; intros metrics; [done|].
  cbn [foldl]. rewrite countRule_applies, filter_cons.
  destruct (applies path method pr) eqn:Happlies.
  - rewrite decide_True by done. cbn [foldl]. apply IH.
  - rewrite decide_False by done. apply IH.
Qed.

(** X15.  [generateMetrics] reports the rules that apply to the request and
    no others: the result is the map to which the metric of each rule whose
    pattern compiles and matches the path, and whose method equals the
    request's in upper case, was added in the order of the rules.  A rule
    whose pattern does not compile is passed over; when no rule applies the
    map is empty; the method of the request counts only in upper case. *)
Theorem generateMetrics_counts_applicable_rules path method conf :
  generateMetrics path method conf =
    foldl (λ metrics pr, MetricsAdd metrics (MetricSystemName pr) (int (Delta pr)))
      newMetrics (filter (λ pr, applies path method pr = true) (ProxyRules conf)) ∧
  (∀ pr, is_Some (MatchString (Pattern pr) path).2 → applies path method pr = false) ∧
  ((∀ pr, pr ∈ ProxyRules conf → applies path method pr = false) →
     generateMetrics path method conf = newMetrics) ∧
  (∀ method', ToUpper method' = ToUpper method →
     generateMetrics path method' conf = generateMetrics path method conf).
Proof.
  split; [apply generateMetrics_fold|]. split; [|split].
  - intros pr [err Herr]. unfold applies.
    destruct (MatchString (Pattern pr) path) as [matched err']. simpl in Herr.
    by subst err'.
  - intros Hnone. unfold generateMetrics. rewrite generateMetrics_fold.
    assert (filter (λ pr, applies path method pr = true) (ProxyRules conf) = []) as ->;
      [|done].
    induction (ProxyRules conf) as [|pr rules IH]; [done|].
    rewrite filter_cons, decide_False.
    + apply IH. intros pr' Hin. apply Hnone. by right.
    + rewrite (Hnone pr); [done | by left].
  - intros method' Hupper. unfold generateMetrics. by rewrite Hupper.
Qed.

(** [New], call by call. *)
Lemma New_eq (AdminPortalURL : option URL) env sid
    (ServiceAPICache AuthorizationAPICache : bool) (w : World) :
  New AdminPortalURL env sid ServiceAPICache AuthorizationAPICache w =
    if bool_decide (sid = "") then ((None, Some missingServiceID), w)
    else
      let named :=
        if bool_decide (env = "")
        then ("sandbox",
              (logWarning "Environment variable is empty, running in sandbox mode." w).2)
        else (env, w) in
      let settings :=
        if ServiceAPICache
        then mkSystemCacheConfig 100 3 (30 * Second) (120 * Second)
        else mkSystemCacheConfig 0 0 0 0 in
      let stop := makeChan named.2 in
      let systemCache := NewSystemCache settings stop.1 stop.2 in
      let made :=
        NewManager NewClientBuilder systemCache.1 AuthorizationAPICache systemCache.2 in
      match made.1.2 with
      | Some err => ((None, Some err), made.2)
      | None =>
          ((Some (mkAuthorizer stop.1
                    (mkConfig settings AuthorizationAPICache AdminPortalURL named.1 sid)
                    made.1.1),
            None), made.2)
      end.
Proof.
  unfold New. destruct (bool_decide (sid = "")); [done|].
  unfold bind, ret. cbn zeta.
  destruct (bool_decide (env = "")); [destruct (logWarning _ w) as [[] w1]|]; cbn [fst snd].
  - destruct (makeChan w1) as [stop w2]. cbn [fst snd].
    destruct (NewSystemCache _ stop w2) as [systemCache w3]. cbn [fst snd].
    by destruct (NewManager _ systemCache _ w3) as [[m [err|]] w4].
  - destruct (makeChan w) as [stop w2]. cbn [fst snd].
    destruct (NewSystemCache _ stop w2) as [systemCache w3]. cbn [fst snd].
    by destruct (NewManager _ systemCache _ w3) as [[m [err|]] w4].
Qed.

(** What [New] returns. *)
Lemma New_cases (AdminPortalURL : option URL) env sid
    (ServiceAPICache AuthorizationAPICache : bool) (w : World) :
  let r := New AdminPortalURL env sid ServiceAPICache AuthorizationAPICache w in
  (sid = "" ∧ r = ((None, Some missingServiceID), w)) ∨
  (sid ≠ "" ∧ r.1.1 = None ∧ is_Some r.1.2) ∨
  (sid ≠ "" ∧ r.1.2 = None ∧
   ∃ stop m,
     r.1.1 = Some (mkAuthorizer stop
       (mkConfig
          (if ServiceAPICache
           then mkSystemCacheConfig 100 3 (30 * Second) (120 * Second)
           else mkSystemCacheConfig 0 0 0 0)
          AuthorizationAPICache AdminPortalURL
          (if bool_decide (env = "") then "sandbox" else env) sid)
       m)).
Proof.
  cbn zeta. rewrite New_eq.
  destruct (bool_decide_reflect (sid = "")) as [->|Hsid]; [by left|].
  right. cbn zeta.
  match goal with
  | |- context [NewManager ?b ?c ?f ?w0] => destruct (NewManager b c f w0) as [[m [err|]] w4]
  end; cbn [fst snd].
  - left. split; [done|]. split; [done | by eexists].
  - right. split; [done|]. split; [done|].
    destruct (bool_decide (env = "")); by eexists _, m.
Qed.

(** X16.  [New] refuses an empty service ID before it does anything; an
    authorizer that [New] returns comes without error, has the service ID
    and the portal URL it was given, the cache settings that the flag
    selects, and an environment that is not empty: the one given, or
    ["sandbox"] for the empty one.  [New] returns an authorizer or an
    error, never both and never neither. *)
Theorem New_validates (AdminPortalURL : option URL) env sid
    (ServiceAPICache AuthorizationAPICache : bool) (w : World) :
  let r := New AdminPortalURL env sid ServiceAPICache AuthorizationAPICache w in
  (sid = "" → r = ((None, Some missingServiceID), w)) ∧
  (∀ a, r.1.1 = Some a →
     r.1.2 = None ∧
     serviceID (config a) = sid ∧ sid ≠ "" ∧
     environment (config a) = (if bool_decide (env = "") then "sandbox" else env) ∧
     environment (config a) ≠ "" ∧
     adminPortalURL (config a) = AdminPortalURL ∧
     authorizationAPICache (config a) = AuthorizationAPICache ∧
     serviceAPICacheConfig (config a) =
       (if ServiceAPICache
        then mkSystemCacheConfig 100 3 (30 * Second) (120 * Second)
        else mkSystemCacheConfig 0 0 0 0)) ∧
  (r.1.1 = None ↔ is_Some r.1.2).
Proof.
  cbn zeta.
  destruct (New_cases AdminPortalURL env sid ServiceAPICache AuthorizationAPICache w)
    as [[-> Hr] | [(Hsid & Hnone & Herr) | (Hsid & Hnil & stop & m & Hsome)]].
  - rewrite Hr. split; [done|]. split; [by intros a [=]|]. simpl. split; eauto.
  - split; [done|]. split; [intros a Ha; by rewrite Hnone in Ha|]. done.
  - split; [done|]. split.
    + intros a Ha. rewrite Hsome in Ha. simplify_eq. simpl.
      split_and!; try done.
      destruct (bool_decide_reflect (env = "")); done.
    + rewrite Hsome, Hnil. split; [done | by intros [? ?]].
Qed.

(** X17.  [New] takes a nil portal URL as it comes, and [AuthzRep] of the
    authorizer it returns panics at once, before any call to the services
    behind the manager. *)
Theorem New_accepts_nil_portal env sid
    (ServiceAPICache AuthorizationAPICache : bool) (w : World) a :
  (New None env sid ServiceAPICache AuthorizationAPICache w).1.1 = Some a →
  ∀ request w0, AuthzRep a request w0 = (Panic, w0).
Proof.
  intros Hnew request w0.
  destruct (New_cases None env sid ServiceAPICache AuthorizationAPICache w)
    as [[_ Hr] | [(_ & Hnone & _) | (_ & _ & stop & m & Hsome)]].
  - by rewrite Hr in Hnew.
  - by rewrite Hnone in Hnew.
  - rewrite Hsome in Hnew. by simplify_eq.
Qed.

(** X18.  [AuthzRep] fails closed.  When it answers that the request is
    authorized, it returns no error, the configuration was fetched without
    error with the access token, service ID and environment of the
    authorizer, and the backend, asked at the endpoint of that
    configuration, answered without error that the request is authorized.
    Whenever it returns an error the answer is [false]. *)
Theorem AuthzRep_fails_closed (a : Authorizer) request (w w' : World) ok err :
  AuthzRep a request w = (Done (ok, err), w') →
  (is_Some err → ok = false) ∧
  (ok = true →
     err = None ∧
     ∃ portal conf req u resp w1,
       adminPortalURL (config a) = Some portal ∧
       request = Some req ∧ RequestURL req = Some u ∧
       GetSystemConfiguration (manager a) (String_ portal)
         (mkSystemRequest (Password (User portal)).1
            (serviceID (config a)) (environment (config a))) w = ((conf, None), w1) ∧
       AuthRep (manager a) (BackendEndpoint conf)
         (mkBackendRequest
            (mkBackendAuth (BackendAuthenticationType conf)
               (BackendAuthenticationValue conf))
            (serviceID (config a))
            [mkBackendTransaction
               (generateMetrics (RequestURI req) (Method req) conf)
               (mkBackendParams
                  (ValuesGet (Query u) (AuthAppID conf))
                  (ValuesGet (Query u) (AuthAppKey conf))
                  (ValuesGet (Query u) (AuthUserKey conf)))]) w1 = ((resp, None), w') ∧
       Authorized resp = true).
Proof.
  unfold AuthzRep. destruct (adminPortalURL (config a)) as [portal|]; [|done].
  unfold bind at 1.
  destruct (GetSystemConfiguration _ _ _ w) as [[conf [e|]] w1] eqn:Hconf; simpl.
  { intros [= <- <- <-]. split; [done | by intros [=]]. }
  destruct request as [req|]; [|done].
  destruct (RequestURL req) as [u|] eqn:Hurl; [|done].
  unfold bind.
  destruct (AuthRep _ _ _ w1) as [[resp [e|]] w2] eqn:Hbackend; simpl.
  { intros [= <- <- <-]. split; [done | by intros [=]]. }
  intros [= <- <- <-]. split; [by intros [? ?]|].
  intros Hauthorized. split; [done|].
  by exists portal, conf, req, u, resp, w1.
Qed.

End authorizer_properties.

(** ** The properties on concrete stores *)

Section examples.
Import Fixture.
Local Open Scope string_scope.

Lemma canonical_visits_all : visits_all canonical.
Proof. intros m. reflexivity. Qed.

(** C1, the claim as stated fails: the store is at its limit of one entry,
    the key ["a"] is present, and [Set] on ["a"] returns the capacity
    error without storing anything. *)
Lemma Set_overwrite_at_capacity_fails :
  0 <= limit fullStore ∧
  Count (cache fullStore) = limit fullStore ∧
  cache fullStore !! "a" = Some (mkValue 5 100 None) ∧
  Set_ ticking fullStore "a" (mkValue 6 200 None) 0%nat =
    ((Some cacheFull, fullStore), 0%nat).
Proof. repeat split; vm_compute; congruence. Qed.

(** C1 (as amended), on the store of one entry. *)
Lemma Set_overwrite_checks_capacity_witness :
  Set_ ticking fullStore "a" (mkValue 6 200 None) 0%nat =
    ((Some cacheFull, fullStore), 0%nat).
Proof.
  apply (Set_overwrite_checks_capacity ticking fullStore "a" (mkValue 6 200 None) 0%nat).
  - eexists. reflexivity.
  - vm_compute. congruence.
  - vm_compute. congruence.
Defined.


(** C3, with limit [2]: the two insertions succeed and a third key is
    refused. *)
Lemma capacity_limit_witness :
  let items := [("a", mkValue 1 0 None); ("b", mkValue 2 50 None)] in
  let r := insertAll ticking (NewConfigCache 10 2) items 0%nat in
  r.1.1 = [None; None] ∧
  Set_ ticking r.1.2 "c" (mkValue 3 0 None) 7%nat = ((Some cacheFull, r.1.2), 7%nat).
Proof.
  intros items r.
  destruct (capacity_limit 0 ticking 2 10 items 0%nat) as (Herrs & _ & Hnext & _).
  - lia.
  - repeat constructor; set_solver.
  - reflexivity.
  - split; [exact Herrs|].
    apply (Hnext "c" (mkValue 3 0 None) 7%nat). set_solver.
Defined.

(** C4, on the first half of [TestConfigCache_Refresh]: the callback
    fails and the entry stays. *)
Lemma Refresh_failed_callback_keeps_entry_witness :
  Get 0 (Refresh ticking canonical canonical
           (storeOf 10 (-1) [("test", unrefreshable)]) 0%nat).1 "test" =
    (unrefreshable, true).
Proof.
  apply (Refresh_failed_callback_keeps_entry 0 ticking canonical canonical
           (storeOf 10 (-1) [("test", unrefreshable)]) 0%nat
           [] "test" unrefreshable [] failing).
  - exact canonical_visits_all.
  - exact canonical_visits_all.
  - reflexivity.
  - reflexivity.
  - eexists. reflexivity.
Defined.

(** C5, the claim as stated fails: the clock reads [5] when the call
    starts and neither entry expires strictly before [5], yet the entry
    visited second, against the reading [6], is removed. *)
Lemma FlushExpired_start_sample_differs :
  visits_all canonical ∧
  (from5 0%nat).1 = 5 ∧
  cache twoEntries !! "a" = Some (mkValue 1 5 None) ∧
  cache twoEntries !! "b" = Some (mkValue 2 5 None) ∧
  After (from5 0%nat).1 5 = false ∧
  cache (FlushExpired from5 canonical twoEntries 0%nat).1 !! "a" = Some (mkValue 1 5 None) ∧
  cache (FlushExpired from5 canonical twoEntries 0%nat).1 !! "b" = None.
Proof. split; [exact canonical_visits_all|]. repeat split; vm_compute; congruence. Qed.

(** C5 (as amended), on the same store: each entry is judged against the
    reading made for it. *)
Lemma FlushExpired_reads_clock_per_entry_witness :
  let r := FlushExpired from5 canonical twoEntries 0%nat in
  cache r.1 !! "a" = Some (mkValue 1 5 None) ∧ cache r.1 !! "b" = None ∧ r.2 = 2%nat.
Proof.
  intros r.
  destruct (FlushExpired_reads_clock_per_entry from5 canonical twoEntries 0%nat
              canonical_visits_all) as (Hvisit & _ & _ & Hworld & _).
  split; [|split].
  - exact (Hvisit [] "a" (mkValue 1 5 None) [("b", mkValue 2 5 None)] eq_refl).
  - exact (Hvisit [("a", mkValue 1 5 None)] "b" (mkValue 2 5 None) [] eq_refl).
  - exact Hworld.
Defined.

(** C6, on [TestConfigCache_Get]. *)
Lemma Get_after_Set_witness :
  let r := Set_ ticking NewDefaultConfigCache "test" (mkValue 5 0 None) 0%nat in
  ∃ entry, Get 0 r.1.2 "test" = (entry, true) ∧
    cache r.1.2 !! "test" = Some entry ∧
    Item entry = 5 ∧ refreshWith entry = None.
Proof.
  intros r.
  exact (proj1 (Get_after_Set 0 ticking NewDefaultConfigCache "test" (mkValue 5 0 None)
                  0%nat r.1.2 r.2 eq_refl)).
Defined.

(** C8, for a value without expiry and for one with the expiry [77]. *)
Lemma Set_expiry_witness :
  let scp := NewConfigCache (ProxyConfig := Z) 10 (-1) in
  let unset := Set_ ticking scp "test" (mkValue 5 0 None) 3%nat in
  let given := Set_ ticking scp "test" (mkValue 5 77 None) 3%nat in
  (∃ entry, cache unset.1.2 !! "test" = Some entry ∧ expires entry = 13) ∧
  (∃ entry, cache given.1.2 !! "test" = Some entry ∧ expires entry = 77).
Proof.
  intros scp unset given. split.
  - destruct (Set_expiry ticking scp "test" (mkValue 5 0 None) 3%nat unset.1.2 unset.2 eq_refl)
      as (entry & Hlookup & _ & Hunset).
    exists entry. split; [exact Hlookup | exact (proj1 (Hunset eq_refl))].
  - destruct (Set_expiry ticking scp "test" (mkValue 5 77 None) 3%nat given.1.2 given.2 eq_refl)
      as (entry & Hlookup & Hgiven & _).
    exists entry. split; [exact Hlookup | exact (Hgiven eq_refl)].
Defined.

(** C7, on a new cache: the first call starts the worker, the second is
    refused. *)
Lemma RunRefreshWorker_starts_once_witness :
  let r := RunRefreshWorker (NewDefaultConfigCache (ProxyConfig := Z) (World := nat))
             1000000 (Some 0%nat) [] in
  r.1.1 = Returned None ∧ refreshWorkerRunning r.1.2 = 1 ∧
  r.2 = [mkWorker 1000000 (Some 0%nat)] ∧
  RunRefreshWorker r.1.2 1000000 (Some 1%nat) r.2 =
    (Returned (Some alreadyStarted), r.1.2, r.2).
Proof.
  intros r.
  destruct (RunRefreshWorker_starts_once
              (NewDefaultConfigCache (ProxyConfig := Z) (World := nat))
              1000000 (Some 0%nat) []) as (Hstart & Hagain & _).
  - reflexivity.
  - lia.
  - repeat split; try exact (Hagain 1000000 (Some 1%nat)); by rewrite Hstart.
Defined.

(** C9, the claim as stated fails: with a clock that reads the zero time
    and a TTL of zero, [Set] of a value whose expiry is the zero time
    stores an entry whose expiry is the zero time. *)
Lemma zero_expiry_can_be_stored :
  let v := SetExpiry (mkValue 5 7 None) 0 in
  let r := Set_ (stopped 0) (NewConfigCache 0 (-1)) "a" v 0%nat in
  r.1.1 = None ∧
  Get 0 r.1.2 "a" = (mkValue 5 0 None, true) ∧
  IsZero (expires (Get 0 r.1.2 "a").1) = true.
Proof. repeat split. Qed.

(** C9 (as amended), under the clock [ticking] and a TTL of [10]: the sum
    [now() + ttl] is never the zero time, and no store reached from a new
    one has an entry with a zero expiry. *)
Lemma zero_expiry_is_replaced_witness :
  let scp := NewConfigCache (ProxyConfig := Z) 10 (-1) in
  let r := Set_ ticking scp "a" (SetExpiry (mkValue 5 7 None) 0) 4%nat in
  cache r.1.2 !! "a" = Some (mkValue 5 14 None) ∧
  no_zero_expiry r.1.2 ∧
  no_zero_expiry (Refresh ticking canonical canonical scp 4%nat).1.
Proof.
  intros scp r.
  destruct (zero_expiry_is_replaced ticking scp "a" (SetExpiry (mkValue 5 7 None) 0) 4%nat)
    as (Hreplaced & _ & Hinv & Hnew).
  assert (∀ w' : nat, IsZero (Add (ticking w').1 (ttl scp)) = false) as Hclock.
  { intros w'. unfold IsZero, Add, ticking. simpl. apply Z.eqb_neq. lia. }
  destruct (Hinv Hclock (Hnew 10 (-1))) as (HSet & _ & _ & HRefresh).
  split; [|split].
  - unfold r. rewrite (Hreplaced eq_refl (or_introl eq_refl)). reflexivity.
  - exact HSet.
  - exact (HRefresh canonical canonical).
Defined.

(** C10, on a store with a refreshed entry, a failed one and one without
    callback. *)
Lemma Refresh_preserves_keys_witness :
  let scp := storeOf 10 (-1)
               [("a", refreshable); ("b", unrefreshable); ("c", mkValue 1 1 None)] in
  dom (cache (Refresh ticking canonical canonical scp 0%nat).1) = dom (cache scp).
Proof.
  intros scp.
  exact (Refresh_preserves_keys ticking canonical canonical scp 0%nat
           canonical_visits_all canonical_visits_all).
Defined.

(** C2, where the code departs from the claim: the second half of
    [TestConfigCache_Refresh] on a store of limit [1].  The callback
    returns the payload [6] and no error, and after [Refresh] the store
    still holds the payload [5] with the old expiry. *)
Lemma Refresh_drops_result_on_full_store :
  let scp := storeOf 10 1 [("test", refreshable)] in
  Count (cache scp) = limit scp ∧
  (succeedWith 6 0%nat).1 = (6, None) ∧
  Get 0 scp "test" = (refreshable, true) ∧
  Get 0 (Refresh ticking canonical canonical scp 0%nat).1 "test" = (refreshable, true).
Proof. repeat split. Qed.

(** X12, on the second half of [TestConfigCache_Refresh]: the entry in a
    store without limit is refreshed. *)
Lemma Refresh_replaces_entry_with_room :
  let scp := storeOf 10 (-1) [("test", refreshable)] in
  Get 0 (Refresh ticking canonical canonical scp 0%nat).1 "test" =
    (mkValue 6 10 (Some (succeedWith 6)), true).
Proof.
  intros scp.
  apply (Refresh_success_with_room 0 ticking canonical canonical scp 0%nat
           [] "test" refreshable [] (succeedWith 6));
    try exact canonical_visits_all; try reflexivity.
  left. simpl. lia.
Defined.


(** X2, on the store of one entry: after [Delete] of ["a"] the key ["b"]
    goes in. *)
Lemma Delete_frees_capacity_witness :
  ∃ scp',
    Set_ ticking (Delete fullStore "a") "b" (mkValue 7 50 None) 0%nat =
      ((None, scp'), 0%nat) ∧
    Get 0 scp' "b" = (mkValue 7 50 None, true).
Proof.
  apply (Delete_frees_capacity 0 ticking fullStore "a" "b" (mkValue 7 50 None) 0%nat).
  - vm_compute. congruence.
  - vm_compute. congruence.
  - eexists. reflexivity.
Defined.

(** X3, on a new store. *)
Lemma Delete_undoes_Set_witness :
  let scp := NewConfigCache (ProxyConfig := Z) (World := nat) 10 2 in
  Delete (Set_ ticking scp "a" (mkValue 5 0 None) 0%nat).1.2 "a" = scp.
Proof.
  intros scp.
  exact (Delete_undoes_Set ticking scp "a" (mkValue 5 0 None) 0%nat _ _ eq_refl eq_refl).
Defined.

(** X5, on the store of one entry. *)
Lemma limit_is_respected_witness :
  within_limit (Set_ ticking fullStore "b" (mkValue 7 50 None) 0%nat).1.2 ∧
  within_limit (Refresh ticking canonical canonical fullStore 0%nat).1.
Proof.
  destruct (limit_is_respected ticking fullStore "b" (mkValue 7 50 None) 0%nat)
    as (HSet & _ & _ & HRefresh & _).
  - right. vm_compute. congruence.
  - split; [exact HSet | exact (HRefresh canonical canonical)].
Defined.

(** X6: the clock reads [5] and [6]; the entry that expired at [1] goes and
    the entry that expires at [100] stays. *)
Lemma FlushExpired_by_clock_bounds_witness :
  let scp := storeOf 10 (-1) [("old", mkValue 1 1 None); ("new", mkValue 2 100 None)] in
  Get 0 (FlushExpired from5 canonical scp 0%nat).1 "old" = (zeroValue 0, false) ∧
  Get 0 (FlushExpired from5 canonical scp 0%nat).1 "new" = (mkValue 2 100 None, true).
Proof.
  intros scp. split.
  - apply (FlushExpired_by_clock_bounds 0 from5 canonical scp 0%nat "old" (mkValue 1 1 None)
             canonical_visits_all eq_refl).
    intros i Hi. destruct i as [|[|i]]; [vm_compute; reflexivity.. |].
    exfalso. vm_compute in Hi. lia.
  - apply (FlushExpired_by_clock_bounds 0 from5 canonical scp 0%nat "new" (mkValue 2 100 None)
             canonical_visits_all eq_refl).
    intros i Hi. destruct i as [|[|i]]; [vm_compute; congruence.. |].
    exfalso. vm_compute in Hi. lia.
Defined.

(** X8, under a clock stopped at [50]. *)
Lemma FlushExpired_twice_witness :
  let r := FlushExpired (stopped 50) canonical twoEntries 0%nat in
  cache (FlushExpired (stopped 50) canonical r.1 r.2).1 = cache r.1.
Proof.
  intros r.
  apply (FlushExpired_twice (stopped 50) canonical twoEntries 0%nat 50 canonical_visits_all).
  intros n. reflexivity.
Defined.

(** X9: the entry without callback is left alone next to one that is
    refreshed. *)
Lemma Refresh_without_callback_witness :
  let scp := storeOf 10 (-1) [("a", refreshable); ("c", mkValue 1 1 None)] in
  Get 0 (Refresh ticking canonical canonical scp 0%nat).1 "c" = (mkValue 1 1 None, true).
Proof.
  intros scp.
  exact (proj1 (Refresh_without_callback 0 ticking canonical canonical scp 0%nat
                  canonical_visits_all canonical_visits_all)
           "c" (mkValue 1 1 None) eq_refl eq_refl).
Defined.

(** X10, on a store with a refreshed entry, a failed one and one without
    callback. *)
Lemma Refresh_keeps_callbacks_witness :
  let scp := storeOf 10 (-1)
               [("a", refreshable); ("b", unrefreshable); ("c", mkValue 1 1 None)] in
  let r := Refresh ticking canonical canonical scp 0%nat in
  Count (cache r.1) = Count (cache scp) ∧ limit r.1 = limit scp ∧ ttl r.1 = ttl scp.
Proof.
  intros scp r.
  destruct (Refresh_keeps_callbacks ticking canonical canonical scp 0%nat
              canonical_visits_all canonical_visits_all) as (_ & Hcount & Hlimit & Httl & _).
  split; [exact Hcount | split; [exact Hlimit | exact Httl]].
Defined.

(** X11, on the store of limit [1] with an entry that could be refreshed. *)
Lemma Refresh_full_store_witness :
  let scp := storeOf 10 1 [("test", refreshable)] in
  (Refresh ticking canonical canonical scp 0%nat).1 = scp.
Proof.
  intros scp. apply (Refresh_full_store ticking canonical canonical scp 0%nat).
  - vm_compute. congruence.
  - vm_compute. congruence.
Defined.

(** X14, on a new cache. *)
Lemma RunRefreshWorker_bad_interval_witness :
  let r := RunRefreshWorker (NewDefaultConfigCache (ProxyConfig := Z) (World := nat))
             0 None [] in
  r.1.1 = Panicked ∧
  RunRefreshWorker r.1.2 1000000 (Some 0%nat) r.2 =
    (Returned (Some alreadyStarted), r.1.2, r.2).
Proof.
  intros r.
  destruct (RunRefreshWorker_bad_interval
              (NewDefaultConfigCache (ProxyConfig := Z) (World := nat)) 0 None [])
    as (Hpanic & _ & _ & _ & Hlater).
  - reflexivity.
  - lia.
  - split; [exact Hpanic | exact (Hlater 1000000 (Some 0%nat))].
Defined.


(** X19, on [TestConfigCache_FlushExpired]: an entry set to expire at [1]
    is flushed by a clock that reads [5]. *)
Lemma SetExpiry_decides_flush_witness :
  let scp := (Set_ from5 NewDefaultConfigCache "test"
                (SetExpiry (mkValue 5 0 None) 1) 0%nat).1.2 in
  Get 0 (FlushExpired from5 canonical scp 0%nat).1 "test" = (zeroValue 0, false).
Proof.
  intros scp.
  destruct (SetExpiry_decides_flush 0 from5 canonical NewDefaultConfigCache "test"
              (mkValue 5 0 None) 1 0%nat scp 0%nat canonical_visits_all eq_refl eq_refl)
    as (_ & Hgone & _).
  apply Hgone. intros i Hi. destruct i as [|i]; [vm_compute; reflexivity|].
  exfalso. vm_compute in Hi. lia.
Defined.

(** X20, on [TestConfigCache_Refresh]: the callback set on the value
    replaces the payload [5] by [6]. *)
Lemma SetRefreshCallback_is_used_witness :
  let scp := NewConfigCache (ProxyConfig := Z) (World := nat) 10 (-1) in
  let r := Set_ ticking scp "test"
             (SetRefreshCallback (mkValue 5 0 None) (Some (succeedWith 6))) 0%nat in
  ∃ w0 : nat,
    Get 0 (Refresh ticking canonical canonical r.1.2 r.2).1 "test" =
      (mkValue 6 (Add (ticking w0).1 10) (Some (succeedWith 6)), true).
Proof.
  intros scp r.
  refine (proj2 (SetRefreshCallback_is_used 0 ticking canonical canonical scp "test"
                   (mkValue 5 0 None) (succeedWith 6) 0%nat
                   canonical_visits_all canonical_visits_all _ _ _)).
  - reflexivity.
  - intros w0. reflexivity.
  - intros w0. unfold IsZero, Add, ticking. simpl. apply Z.eqb_neq. lia.
Defined.


(** X21, on the default cache. *)
Lemma insertAll_then_Get_witness :
  let items := [("a", mkValue 1 0 None); ("b", mkValue 2 77 None)] in
  ∃ e, Get 0 (insertAll ticking NewDefaultConfigCache items 0%nat).1.2 "b" = (e, true) ∧
    Item e = 2 ∧ refreshWith e = None ∧ (IsZero 77 = false → expires e = 77).
Proof.
  intros items.
  apply (insertAll_then_Get 0 ticking items NewDefaultConfigCache 0%nat "b"
           (mkValue 2 77 None)).
  - reflexivity.
  - repeat constructor; set_solver.
  - set_solver.
Defined.

End examples.

(** ** The authorizer on a concrete service *)

Section authorizer_examples.
Import Authorizer AuthFixture.
Local Open Scope string_scope.

(** A request for [/pets] counts the rules for [GET], in either case; the
    rule whose pattern does not compile and the rule for [POST] do not
    count. *)
Example generateMetrics_petstore :
  generateMetrics (H := imports) "/pets" "get" petstore = [("hits", 1); ("reads", 3)] ∧
  generateMetrics (H := imports) "/cats" "get" petstore = [].
Proof. split; reflexivity. Qed.

(** X17: [New] with the nil portal URL and an empty environment returns an
    authorizer for the sandbox, whose [AuthzRep] panics. *)
Lemma New_accepts_nil_portal_witness :
  let r := New (H := imports) None "" "svc" true false [] in
  ∃ a, r.1.1 = Some a ∧ environment (config a) = "sandbox" ∧
    AuthzRep a (Some (getPets "secret")) [] = (Panic, []).
Proof.
  intros r. eexists. split; [reflexivity|]. split; [reflexivity|].
  apply (New_accepts_nil_portal (H := imports) "" "svc" true false []).
  reflexivity.
Defined.

(** X18: a request with the right user key is authorized, and then the
    backend said so. *)
Lemma AuthzRep_fails_closed_witness :
  let a := mkAuthorizer (H := imports) (Some 0%nat)
             (mkConfig (mkSystemCacheConfig 0 0 0 0) false (Some portal) "sandbox" "svc") tt in
  AuthzRep a (Some (getPets "secret")) [] = (Done (true, None), []) ∧
  AuthzRep a (Some (getPets "guess")) [] = (Done (false, None), []) ∧
  ∃ resp : BackendResponse (Imports := imports), Authorized resp = true.
Proof.
  intros a. split; [reflexivity|]. split; [reflexivity|].
  destruct (AuthzRep_fails_closed (H := imports) a (Some (getPets "secret")) [] []
              true None eq_refl) as [_ Hauthorized].
  destruct (Hauthorized eq_refl)
    as (_ & portal' & conf & req & u & resp & w1 & _ & _ & _ & _ & _ & Hyes).
  exists resp. exact Hyes.
Defined.

End authorizer_examples.
